(** * koalanlp/data: the annotation data model

    A shallow embedding of [src/src/data.js].  The module builds a
    cross-referenced object graph (morphemes, words, phrase trees, edges,
    entities, coreference groups, sentences) whose back-references are
    written while the graph is constructed.

    The first part models the JavaScript store the constructors write to:
    objects with named properties, accessor properties installed by
    [writeonlyonce] and [replaceableifempty], array elements, exceptions and
    the console.  The second part models the read-only queries
    ([equals], [getTerminals], [nouns], [verbs], [modifiers]) on the values
    they traverse. *)

From Stdlib Require Import ZArith Bool List Permutation Sorted Lia.
From stdpp Require Import base option list gmap strings.

Open Scope Z_scope.
Open Scope string_scope.
Open Scope list_scope.

(** ** JavaScript values *)

Definition loc := nat.

(** [VRef] points to a native object of the store; [VJava] is the proxy of
    an object living in the JVM (the analyzer's own representation). *)
Inductive val :=
| VUndef
| VNull
| VBool (b : bool)
| VNum (n : Z)
| VStr (s : string)
| VRef (l : loc)
| VJava (h : nat).

#[global] Instance val_eq_dec : EqDecision val.
Proof. solve_decision. Defined.

(** [isDefined(value)]: [typeof value !== 'undefined' && value !== null]. *)
Definition isDefined (value : val) : bool :=
  match value with
  | VUndef | VNull => false
  | _ => true
  end.

(** [getOrUndefined(value)]. *)
Definition getOrUndefined (value : val) : val :=
  if isDefined value then value else VUndef.

(** The [===] operator on the values above (no NaN occurs here). *)
Definition strict_eq (a b : val) : bool := bool_decide (a = b).

(** The [typeof] operator.  Every object, native or foreign, and [null]
    answer ["object"]: the operator does not tell classes apart. *)
Definition typeof (v : val) : string :=
  match v with
  | VUndef => "undefined"
  | VNull => "object"
  | VBool _ => "boolean"
  | VNum _ => "number"
  | VStr _ => "string"
  | VRef _ => "object"
  | VJava _ => "object"
  end.

(** ** Objects and the store *)

Inductive class :=
| CArray            (* a plain JavaScript array *)
| CMorpheme
| CWord
| CEntity
| CCoreferenceGroup
| CTree
| CSyntaxTree
| CDAGEdge
| CDepEdge
| CRoleEdge
| CSentence.

#[global] Instance class_eq_dec : EqDecision class.
Proof. solve_decision. Defined.

(** The classes that extend [Array] through [ImmutableArray]. *)
Definition is_array_class (c : class) : bool :=
  match c with
  | CArray | CWord | CEntity | CCoreferenceGroup | CTree | CSyntaxTree
  | CSentence => true
  | CMorpheme | CDAGEdge | CDepEdge | CRoleEdge => false
  end.

(** A property is a data property or one of the two accessor properties the
    module installs; an accessor keeps its current value in the closure
    variable [value] of its getter and setter. *)
Inductive slot :=
| Data (v : val)
| WriteOnce (value : val)
| ReplaceableIfEmpty (value : val).

Record object := Object {
  o_class : class;
  o_props : gmap string slot;
  o_items : list val;       (* the indexed elements of an array *)
  o_frozen : bool
}.

Record state := State {
  heap : list object;
  console : list string     (* what [console.assert] has written *)
}.

Inductive js_error :=
| TypeError
| RangeError
| Error
| AssertionError.

Inductive outcome (A : Type) :=
| Returns (a : A)
| Throws (e : js_error).
Arguments Returns {A} a.
Arguments Throws {A} e.

(** ** Computations: state passing with exceptions *)

Definition M (A : Type) : Type := state -> outcome A * state.

#[global] Instance M_ret : MRet M := fun A a st => (Returns a, st).
#[global] Instance M_bind : MBind M := fun A B f m st =>
  match m st with
  | (Returns a, st') => f a st'
  | (Throws e, st') => (Throws e, st')
  end.

Definition throw {A} (e : js_error) : M A := fun st => (Throws e, st).
Definition write_console (msg : string) : M unit :=
  fun st => (Returns tt, State (heap st) (console st ++ [msg])).

(** [for (const x of xs) body(x)] and its indexed form over [entries()]. *)
Fixpoint for_of {A} (xs : list A) (body : A -> M unit) : M unit :=
  match xs with
  | [] => mret tt
  | x :: xs' => _ ← body x; for_of xs' body
  end.

Fixpoint for_entries {A} (i : Z) (xs : list A) (body : Z -> A -> M unit)
  : M unit :=
  match xs with
  | [] => mret tt
  | x :: xs' => _ ← body i x; for_entries (i + 1) xs' body
  end.

(** Mapping a computation over a list, left to right. *)
Fixpoint map_M {A B} (f : A -> M B) (xs : list A) : M (list B) :=
  match xs with
  | [] => mret []
  | x :: xs' => y ← f x; ys ← map_M f xs'; mret (y :: ys)
  end.

(** ** The console

    [console.assert(cond, msg)].  In Node.js before version 10 a failed
    assertion throws an [AssertionError]; from version 10 on, as the
    Console standard prescribes, it writes the message and execution goes
    on.  The package declares [node >= 8.0.0], so both hosts are modelled. *)
Inductive runtime :=
| LegacyAssert      (* Node.js 8 and 9 *)
| StandardAssert.   (* Node.js 10 and later *)

(** ** The foreign representation

    What the getters of the analyzer's objects answer, as far as the
    reconstruction reads them.  Each foreign object has a [handle], the
    identity of its proxy; a word or morpheme is referred to through its
    position indices ([getId()], [getWord().getId()]). *)
Record JMorpheme := {
  jm_handle : nat;
  jm_surface : val;
  jm_tag : string;            (* getTag().name() *)
  jm_originalTag : val;
  jm_id : Z;
  jm_word_id : Z              (* getWord().getId() *)
}.

Record JWord := {
  jw_handle : nat;
  jw_surface : val;
  jw_id : Z;
  jw_morphemes : list JMorpheme
}.

#[warnings="-register-all"] Inductive JTree :=
| JNode (handle : nat) (label : string) (terminal : option JWord)
        (children : list JTree) (originalLabel : val).

Record JDepEdge := {
  jd_handle : nat;
  jd_governor : option JWord;
  jd_dependent : option JWord;
  jd_type : string;           (* getType().name() *)
  jd_depType : val;
  jd_originalLabel : val
}.

Record JRoleEdge := {
  jr_handle : nat;
  jr_predicate : option JWord;
  jr_argument : option JWord;
  jr_label : string;          (* getLabel().name() *)
  jr_modifiers : list (option JWord);
  jr_originalLabel : val
}.

Record JEntity := {
  je_handle : nat;
  je_surface : val;
  je_label : string;          (* getLabel().name() *)
  je_fineLabel : val;
  je_morphemes : list (option JMorpheme);
  je_originalLabel : val
}.

Record JCorefGroup := {
  jc_handle : nat;
  jc_entities : list JEntity
}.

Record JSentence := {
  js_handle : nat;
  js_words : list JWord;
  js_syntaxTree : option JTree;
  js_dependencies : list JDepEdge;
  js_roles : list JRoleEdge;
  js_entities : list JEntity;
  js_corefGroups : list JCorefGroup
}.

(** What the JVM bridge ([./jvm], not part of this module) answers:
    [jvm_construct cls args] is the proxy of a freshly built foreign object,
    [jvm_call h method] the result of a getter of the foreign object [h],
    and [jvm_prop h p] what reading the plain property [p] of a proxy
    yields.  [underscore_eq st stack a b] is what the [eq] of the underscore
    library answers on two values that are not identical, met while the
    arrays paired in [stack] are being compared. *)
Record Host := {
  assert_mode : runtime;
  jvm_construct : string -> list val -> nat;
  jvm_call : nat -> string -> val;
  jvm_prop : nat -> string -> val;
  underscore_eq : state -> list (loc * loc) -> val -> val -> bool
}.

Section Store.

Variable host : Host.

Definition console_assert (cond : bool) (msg : string) : M unit :=
  if cond then mret tt
  else match assert_mode host with
       | LegacyAssert => throw AssertionError
       | StandardAssert => write_console msg
       end.

(** ** Property access *)

Definition alloc (o : object) : M loc := fun st =>
  (Returns (length (heap st)), State (heap st ++ [o]) (console st)).

Definition new_object (c : class) (items : list val) : M loc :=
  alloc (Object c ∅ items false).

(** The object a value designates; property access on [undefined] or
    [null] throws. *)
Definition deref (v : val) : M (option (loc * object)) := fun st =>
  match v with
  | VUndef | VNull => (Throws TypeError, st)
  | VRef l =>
      match heap st !! l with
      | Some o => (Returns (Some (l, o)), st)
      | None => (Throws TypeError, st)
      end
  | _ => (Returns None, st)
  end.

Definition slot_value (s : slot) : val :=
  match s with
  | Data v => v
  | WriteOnce v => v
  | ReplaceableIfEmpty v => v
  end.

(** [target.p] *)
Definition get_prop (target : val) (p : string) : M val :=
  r ← deref target;
  match r with
  | Some (_, o) =>
      if bool_decide (p = "length") && is_array_class (o_class o)
      then mret (VNum (Z.of_nat (length (o_items o))))
      else mret (from_option slot_value VUndef (o_props o !! p))
  | None =>
      match target with
      | VStr s =>
          if bool_decide (p = "length")
          then mret (VNum (Z.of_nat (String.length s)))
          else mret VUndef
      | VJava h => mret (jvm_prop host h p)
      | _ => mret VUndef
      end
  end.

Definition store_slot (l : loc) (o : object) (p : string) (s : slot)
  : M unit := fun st =>
  (Returns tt,
   State (<[l := Object (o_class o) (<[p := s]> (o_props o)) (o_items o)
                        (o_frozen o)]> (heap st))
         (console st)).

(** [Object.freeze(v)] *)
Definition freeze (v : val) : M val := fun st =>
  match v with
  | VRef l =>
      match heap st !! l with
      | Some o =>
          (Returns v,
           State (<[l := Object (o_class o) (o_props o) (o_items o) true]>
                    (heap st))
                 (console st))
      | None => (Returns v, st)
      end
  | _ => (Returns v, st)
  end.

(** [target.p = newValue] in strict mode (the module is an ES module).
    The two accessor cases are the bodies of the setters that
    [writeonlyonce] and [replaceableifempty] install.  Properties set on a
    foreign proxy are not tracked. *)
Definition set_prop (target : val) (p : string) (newValue : val) : M unit :=
  r ← deref target;
  match r with
  | Some (l, o) =>
      match o_props o !! p with
      | Some (WriteOnce value) =>
          _ ← console_assert (negb (isDefined value)) p;
          store_slot l o p (WriteOnce newValue)
      | Some (ReplaceableIfEmpty value) =>
          len ← get_prop value "length";
          _ ← console_assert (strict_eq len (VNum 0)) p;
          frozen ← freeze newValue;
          r' ← deref target;
          match r' with
          | Some (l', o') => store_slot l' o' p (ReplaceableIfEmpty frozen)
          | None => throw TypeError
          end
      | _ =>
          if o_frozen o then throw TypeError
          else store_slot l o p (Data newValue)
      end
  | None =>
      match target with
      | VJava _ => mret tt
      | _ => throw TypeError
      end
  end.

(** [writeonlyonce(target, ...properties)]: every listed property becomes
    an accessor whose closure variable starts as [undefined]. *)
Definition define_write_once (target : val) (property : string) : M unit :=
  r ← deref target;
  match r with
  | Some (l, o) => store_slot l o property (WriteOnce VUndef)
  | None => throw TypeError
  end.

Definition writeonlyonce (target : val) (properties : list string) : M unit :=
  for_of properties (define_write_once target).

(** [replaceableifempty(target, ...properties)]: the closure variable starts
    as a frozen empty array. *)
Definition define_replaceable (target : val) (property : string) : M unit :=
  a ← alloc (Object CArray ∅ [] true);
  r ← deref target;
  match r with
  | Some (l, o) => store_slot l o property (ReplaceableIfEmpty (VRef a))
  | None => throw TypeError
  end.

Definition replaceableifempty (target : val) (properties : list string)
  : M unit :=
  for_of properties (define_replaceable target).

(** A class field [name = init;] of the object under construction. *)
Definition init_field (this : val) (name : string) (init : val) : M unit :=
  set_prop this name init.

(** A class field [name = [];]. *)
Definition init_array_field (this : val) (name : string) : M unit :=
  a ← new_object CArray [];
  set_prop this name (VRef a).

(** [array.push(x)] on a plain array held in a property. *)
Definition push (array : val) (x : val) : M unit :=
  r ← deref array;
  match r with
  | Some (l, o) =>
      if o_frozen o then throw TypeError
      else if negb (bool_decide (o_class o = CArray)) then
        (* [ImmutableArray.push] *)
        if is_array_class (o_class o) then throw Error else throw TypeError
      else fun st =>
        (Returns tt,
         State (<[l := Object (o_class o) (o_props o) (o_items o ++ [x])
                              (o_frozen o)]> (heap st))
               (console st))
  | None => throw TypeError
  end.

(** ** JavaMixin: the [reference] accessor pair

    [initReference] stands for the class's [_initReference]. *)
Definition set_reference (this : val) (value : val) : M unit :=
  cur ← get_prop this "_reference";
  if isDefined cur then throw TypeError
  else set_prop this "_reference" value.

Definition get_reference (this : val) (initReference : M val) : M val :=
  cur ← get_prop this "_reference";
  _ ← (if negb (isDefined cur)
       then (r ← initReference; set_prop this "_reference" r)
       else mret tt);
  get_prop this "_reference".

(** ** ImmutableArray *)

(** The spread [...items] of a call: arrays and strings are iterable. *)
Fixpoint chars (s : string) : list val :=
  match s with
  | EmptyString => []
  | String c s' => VStr (String c EmptyString) :: chars s'
  end.

Definition spread (items : val) : M (list val) :=
  r ← deref items;
  match r with
  | Some (_, o) =>
      if is_array_class (o_class o) then mret (o_items o)
      else throw TypeError
  | None =>
      match items with
      | VStr s => mret (chars s)
      | _ => throw TypeError
      end
  end.

(** [new Array(...args)]: one numeric argument is a length, anything else
    is the list of elements. *)
Definition Array_elements (args : list val) : M (list val) :=
  match args with
  | [VNum n] =>
      if ((0 <=? n) && (n <? 2 ^ 32))%Z then mret (replicate (Z.to_nat n) VUndef)
      else throw RangeError
  | _ => mret args
  end.

(** [constructor(items) { super(...items); }], followed by the field
    [_reference] of the mixin. *)
Definition ImmutableArray_new (c : class) (items : val) : M val :=
  args ← spread items;
  elems ← Array_elements args;
  l ← new_object c elems;
  _ ← init_field (VRef l) "_reference" VUndef;
  mret (VRef l).

(** [class JavaWrappable extends JavaMixin(Object)] *)
Definition JavaWrappable_new (c : class) : M val :=
  l ← new_object c [];
  _ ← init_field (VRef l) "_reference" VUndef;
  mret (VRef l).

(** ** Prototype getters

    The getters of the classes that only return a backing field:
    [get surface() { return this._surface; }] and the like. *)
Definition getter_field (c : class) (p : string) : option string :=
  match c with
  | CMorpheme =>
      if bool_decide (p = "surface") then Some "_surface"
      else if bool_decide (p = "originalTag") then Some "_originalTag"
      else None
  | CWord => if bool_decide (p = "surface") then Some "_surface" else None
  | CEntity =>
      if bool_decide (p = "surface") then Some "_surface"
      else if bool_decide (p = "fineLabel") then Some "_fineLabel"
      else if bool_decide (p = "originalLabel") then Some "_originalLabel"
      else None
  | CTree => if bool_decide (p = "terminal") then Some "_terminal" else None
  | CSyntaxTree =>
      if bool_decide (p = "terminal") then Some "_terminal"
      else if bool_decide (p = "originalLabel") then Some "_originalLabel"
      else None
  | CDAGEdge =>
      if bool_decide (p = "src") then Some "_src"
      else if bool_decide (p = "dest") then Some "_dest"
      else None
  | CDepEdge =>
      if bool_decide (p = "src") || bool_decide (p = "governor")
      then Some "_src"
      else if bool_decide (p = "dest") || bool_decide (p = "dependent")
      then Some "_dest"
      else if bool_decide (p = "originalLabel") then Some "_originalLabel"
      else None
  | CRoleEdge =>
      if bool_decide (p = "src") || bool_decide (p = "predicate")
      then Some "_src"
      else if bool_decide (p = "dest") || bool_decide (p = "argument")
      then Some "_dest"
      else if bool_decide (p = "originalLabel") then Some "_originalLabel"
      else None
  | CArray | CCoreferenceGroup | CSentence => None
  end.

(** [target.p] where [p] may be one of the getters above. *)
Definition get_member (target : val) (p : string) : M val :=
  r ← deref target;
  match r with
  | Some (_, o) =>
      get_prop target (default p (getter_field (o_class o) p))
  | None => get_prop target p
  end.

(** [array[i]]: an index out of range reads [undefined]. *)
Definition get_index (array : val) (i : Z) : M val :=
  r ← deref array;
  match r with
  | Some (_, o) =>
      if (0 <=? i)%Z then mret (default VUndef (o_items o !! Z.to_nat i))
      else mret VUndef
  | None => mret VUndef
  end.

(** JavaScript truthiness, as [||] and conditions use it. *)
Definition truthy (v : val) : bool :=
  match v with
  | VUndef | VNull => false
  | VBool b => b
  | VNum n => negb (n =? 0)%Z
  | VStr s => negb (bool_decide (s = ""))
  | VRef _ | VJava _ => true
  end.

(** [v > 0], false when [v] is not a number. *)
Definition gt_zero (v : val) : bool :=
  match v with
  | VNum n => (0 <? n)%Z
  | _ => false
  end.

(** [Array.isArray(v)] *)
Definition isArray (v : val) : M bool := fun st =>
  match v with
  | VRef l =>
      match heap st !! l with
      | Some o => (Returns (is_array_class (o_class o)), st)
      | None => (Returns false, st)
      end
  | _ => (Returns false, st)
  end.

(** ** Morpheme

    In every constructor below the class fields are initialised when
    [super] returns, in the order the class declares them, before the rest
    of the constructor body runs. *)

(** [Morpheme._initReference] *)
Definition Morpheme_initReference (this : val) : M val :=
  surface ← get_prop this "_surface";
  tag ← get_prop this "_tag";
  originalTag ← get_prop this "_originalTag";
  mret (VJava (jvm_construct host "Morpheme" [surface; tag; originalTag])).

(** [reference.getWordSense()] *)
Definition call_getWordSense (reference : val) : M val :=
  match reference with
  | VJava h => mret (jvm_call host h "getWordSense")
  | _ => throw TypeError
  end.

(** [new Morpheme(surface, tag, originalTag, reference)] *)
Definition Morpheme_new (surface tag originalTag reference : val) : M val :=
  this ← JavaWrappable_new CMorpheme;
  _ ← init_field this "_surface" VUndef;
  _ ← init_field this "_tag" VUndef;
  _ ← init_field this "_originalTag" VUndef;
  _ ← init_field this "id" VUndef;
  _ ← init_field this "word" VUndef;
  _ ← init_field this "wordSense" VUndef;
  _ ← init_array_field this "entities";
  _ ← writeonlyonce this ["id"; "word"; "wordsense"];
  _ ← set_prop this "_surface" surface;
  _ ← set_prop this "_tag" tag;
  _ ← set_prop this "_originalTag" originalTag;
  _ ← set_reference this reference;
  r ← get_reference this (Morpheme_initReference this);
  _ ← (if isDefined r
       then (r' ← get_reference this (Morpheme_initReference this);
             ws ← call_getWordSense r';
             set_prop this "wordSense" (getOrUndefined ws))
       else mret tt);
  mret this.

(** ** Word *)

(** [new Word(surface, morphemes, reference)] *)
Definition Word_new (surface morphemes reference : val) : M val :=
  len ← (if isDefined surface && isDefined morphemes
         then get_prop morphemes "length" else mret VUndef);
  _ ← console_assert
        (isDefined surface && isDefined morphemes && gt_zero len) "Word";
  this ← ImmutableArray_new CWord morphemes;
  _ ← init_field this "_surface" VUndef;
  _ ← init_field this "id" VUndef;
  _ ← init_array_field this "entities";
  _ ← init_field this "phrase" VUndef;
  _ ← init_array_field this "dependentEdges";
  _ ← init_field this "governorEdge" VUndef;
  _ ← init_array_field this "argumentRoles";
  _ ← init_array_field this "predicateRoles";
  _ ← writeonlyonce this ["id"; "phrase"; "governorEdge"];
  _ ← set_prop this "_surface" surface;
  _ ← set_reference this reference;
  items ← spread this;
  _ ← for_entries 0 items (fun i morph =>
         _ ← set_prop morph "word" this;
         set_prop morph "id" (VNum i));
  mret this.

(** ** Entity and CoreferenceGroup *)

(** [new Entity(surface, label, fineLabel, morphemes, originalLabel)] *)
Definition Entity_new (surface label fineLabel morphemes originalLabel : val)
  : M val :=
  _ ← console_assert
        (isDefined surface && isDefined label && isDefined fineLabel
         && isDefined morphemes) "Entity";
  this ← ImmutableArray_new CEntity morphemes;
  _ ← init_field this "_surface" VUndef;
  _ ← init_field this "_label" VUndef;
  _ ← init_field this "_fineLabel" VUndef;
  _ ← init_field this "_originalLabel" VUndef;
  _ ← init_field this "corefGroup" VUndef;
  _ ← writeonlyonce this ["corefGroup"];
  _ ← set_prop this "_surface" surface;
  _ ← set_prop this "_label" label;
  _ ← set_prop this "_fineLabel" fineLabel;
  _ ← set_prop this "_originalLabel" originalLabel;
  items ← spread this;
  _ ← for_of items (fun morph =>
         es ← get_prop morph "entities";
         push es this);
  mret this.

(** [new CoreferenceGroup(entities)] *)
Definition CoreferenceGroup_new (entities : val) : M val :=
  this ← ImmutableArray_new CCoreferenceGroup entities;
  items ← spread this;
  _ ← for_of items (fun entity => set_prop entity "corefGroup" this);
  mret this.

(** ** Tree and SyntaxTree *)

(** [new Tree(label, terminal, children)], also as the [super] call of a
    SyntaxTree *)
Definition Tree_new (c : class) (label terminal children : val) : M val :=
  this ← ImmutableArray_new c children;
  _ ← init_field this "_label" VUndef;
  _ ← init_field this "_terminal" VUndef;
  _ ← init_field this "parent" VUndef;
  _ ← writeonlyonce this ["parent"];
  _ ← set_prop this "_label" label;
  _ ← set_prop this "_terminal" terminal;
  mret this.

(** [new SyntaxTree(label, terminal, children, originalLabel)] *)
Definition SyntaxTree_new (label terminal children originalLabel : val)
  : M val :=
  children' ← (if truthy children then mret children
               else (a ← new_object CArray []; mret (VRef a)));
  this ← Tree_new CSyntaxTree label terminal children';
  _ ← init_field this "_originalLabel" VUndef;
  _ ← set_prop this "_originalLabel" originalLabel;
  term ← get_member this "terminal";
  _ ← (if negb (strict_eq term VUndef)
       then set_prop term "phrase" this else mret tt);
  items ← spread this;
  _ ← for_of items (fun child => set_prop child "parent" this);
  mret this.

(** ** DAGEdge, DepEdge, RoleEdge *)

(** [new DAGEdge(src, dest, label)], also as the [super] call of the two
    subclasses *)
Definition DAGEdge_new (c : class) (src dest label : val) : M val :=
  this ← JavaWrappable_new c;
  _ ← init_field this "_src" VUndef;
  _ ← init_field this "_dest" VUndef;
  _ ← init_field this "_label" VUndef;
  _ ← console_assert (isDefined dest) "dest";
  _ ← set_prop this "_src" src;
  _ ← set_prop this "_dest" dest;
  _ ← set_prop this "_label" label;
  mret this.

(** [new DepEdge(governor, dependent, type, depType, originalLabel)] *)
Definition DepEdge_new (governor dependent type depType originalLabel : val)
  : M val :=
  _ ← console_assert (isDefined type) "type";
  this ← DAGEdge_new CDepEdge governor dependent depType;
  _ ← init_field this "_originalLabel" VUndef;
  _ ← init_field this "_type" VUndef;
  _ ← set_prop this "_type" type;
  _ ← set_prop this "_originalLabel" originalLabel;
  dest ← get_member this "dest";
  _ ← (if isDefined dest
       then set_prop dest "governorEdge" this else mret tt);
  src ← get_member this "src";
  _ ← (if isDefined src
       then (es ← get_prop src "dependentEdges"; push es this)
       else mret tt);
  mret this.

(** [new RoleEdge(predicate, argument, label, modifiers, originalLabel)] *)
Definition RoleEdge_new
  (predicate argument label modifiers originalLabel : val) : M val :=
  _ ← console_assert (isDefined predicate && isDefined label) "RoleEdge";
  this ← DAGEdge_new CRoleEdge predicate argument label;
  _ ← init_field this "_originalLabel" VUndef;
  _ ← init_field this "_modifiers" VUndef;
  _ ← set_prop this "_modifiers" modifiers;
  _ ← set_prop this "_originalLabel" originalLabel;
  dest ← get_member this "dest";
  _ ← (if isDefined dest
       then (rs ← get_prop dest "predicateRoles"; push rs this)
       else mret tt);
  src ← get_member this "src";
  _ ← (if isDefined src
       then (rs ← get_prop src "argumentRoles"; push rs this)
       else mret tt);
  mret this.

(** ** Equality

    [_.isEqual(a, b)] of underscore 1.9: identical values are equal; an
    array is compared with an array only, by length and then element by
    element, and neither the constructors nor the named properties of the
    two arrays are looked at. *)
Definition eq_elements (st : state) (stack : list (loc * loc)) (x y : val)
  : bool :=
  strict_eq x y || underscore_eq host st stack x y.

Fixpoint all_pairs (f : val -> val -> bool) (xs ys : list val) : bool :=
  match xs, ys with
  | [], [] => true
  | x :: xs', y :: ys' => f x y && all_pairs f xs' ys'
  | _, _ => false
  end.

Definition isEqual (a b : val) : M bool := fun st =>
  (Returns
     (if strict_eq a b then true
      else match a, b with
           | VRef la, VRef lb =>
               match heap st !! la, heap st !! lb with
               | Some oa, Some ob =>
                   match is_array_class (o_class oa),
                         is_array_class (o_class ob) with
                   | true, true =>
                       all_pairs (eq_elements st [(la, lb)])
                                 (o_items oa) (o_items ob)
                   | false, false => underscore_eq host st [] a b
                   | _, _ => false
                   end
               | _, _ => false
               end
           | VRef la, VJava _ | VJava _, VRef la =>
               match heap st !! la with
               | Some oa =>
                   if is_array_class (o_class oa) then false
                   else underscore_eq host st [] a b
               | None => false
               end
           | VJava _, VJava _ => underscore_eq host st [] a b
           | _, _ => false
           end), st).

(** [ImmutableArray.equals] *)
Definition ImmutableArray_equals (this other : val) : M bool :=
  if bool_decide (typeof other = typeof this) then isEqual this other
  else mret false.

(** [other instanceof Morpheme] *)
Definition instanceof (other : val) (c : class) : M bool := fun st =>
  match other with
  | VRef l =>
      match heap st !! l with
      | Some o => (Returns (bool_decide (o_class o = c)), st)
      | None => (Returns false, st)
      end
  | _ => (Returns false, st)
  end.

(** [a && b] on computations: [b] is not evaluated when [a] is false. *)
Definition and_then (a b : M bool) : M bool :=
  a ≫= (fun x : bool => if x then b else mret false).

Definition same_member (this other : val) (p : string) : M bool :=
  x ← get_member this p; y ← get_member other p; mret (strict_eq x y).

(** [Morpheme.equals] *)
Definition Morpheme_equals (this other : val) : M bool :=
  and_then (instanceof other CMorpheme)
    (and_then (same_member this other "surface")
              (same_member this other "_tag")).

(** [Word.equals] *)
Definition Word_equals (this other : val) : M bool :=
  and_then (ImmutableArray_equals this other)
           (same_member this other "surface").

(** [Entity.equals] *)
Definition Entity_equals (this other : val) : M bool :=
  and_then (same_member this other "_label")
    (and_then (same_member this other "fineLabel")
              (ImmutableArray_equals this other)).

(** [x.equals(other)] for a member [x] of a tree or an edge.  The members
    are Words by the constructors' signatures; the classes whose [equals]
    calls no further [equals] are dispatched, [undefined] and [null] have
    no properties, and any other value has no such method here. *)
Definition call_equals (x other : val) : M bool :=
  r ← deref x;
  match r with
  | Some (_, o) =>
      match o_class o with
      | CMorpheme => Morpheme_equals x other
      | CWord => Word_equals x other
      | CEntity => Entity_equals x other
      | CCoreferenceGroup | CSentence => ImmutableArray_equals x other
      | _ => throw TypeError
      end
  | None => throw TypeError
  end.

(** [Tree.equals] *)
Definition Tree_equals (this other : val) : M bool :=
  term ← get_member this "terminal";
  if isDefined term then
    and_then (same_member this other "_label")
      (and_then (oterm ← get_member other "terminal"; call_equals term oterm)
                (ImmutableArray_equals this other))
  else
    and_then (same_member this other "_label")
      (and_then (oterm ← get_member other "terminal";
                 mret (negb (isDefined oterm)))
                (ImmutableArray_equals this other)).

(** [DAGEdge.equals] *)
Definition DAGEdge_equals (this other : val) : M bool :=
  and_then (mret (bool_decide (typeof this = typeof other)))
    (and_then (same_member this other "_label")
       (and_then (src ← get_member this "src";
                  osrc ← get_member other "src";
                  call_equals src osrc)
                 (dest ← get_member this "dest";
                  odest ← get_member other "dest";
                  call_equals dest odest))).

(** [DepEdge.equals] *)
Definition DepEdge_equals (this other : val) : M bool :=
  and_then (same_member this other "_type") (DAGEdge_equals this other).

(** [this.equals(other)], by the class of [this]: [CoreferenceGroup] and
    [Sentence] inherit [ImmutableArray.equals], [SyntaxTree] inherits
    [Tree.equals], [RoleEdge] inherits [DAGEdge.equals]. *)
Definition equals (this other : val) : M bool :=
  r ← deref this;
  match r with
  | Some (_, o) =>
      match o_class o with
      | CMorpheme => Morpheme_equals this other
      | CWord => Word_equals this other
      | CEntity => Entity_equals this other
      | CCoreferenceGroup | CSentence => ImmutableArray_equals this other
      | CTree | CSyntaxTree => Tree_equals this other
      | CDAGEdge | CRoleEdge => DAGEdge_equals this other
      | CDepEdge => DepEdge_equals this other
      | CArray => throw TypeError
      end
  | None => throw TypeError
  end.

(** ** The mutating methods of an ImmutableArray

    [ImmutableArray] overrides [copyWithin], [pop], [push], [sort] and
    [fill]; the other mutating methods of [Array.prototype] that take no
    species constructor, [reverse], [shift] and [unshift], are inherited. *)
Inductive mutator :=
| CopyWithin (target start stop : val)
| Pop
| Push (items : list val)
| Sort (compareFn : val)
| Fill (value start stop : val)
| Reverse
| Shift
| Unshift (items : list val).

Definition put_items (l : loc) (o : object) (items : list val) : M unit :=
  fun st =>
  (Returns tt,
   State (<[l := Object (o_class o) (o_props o) items (o_frozen o)]> (heap st))
         (console st)).

Definition ImmutableArray_call (this : val) (m : mutator) : M val :=
  match m with
  | CopyWithin _ _ _ | Pop | Push _ | Sort _ | Fill _ _ _ => throw Error
  | Reverse =>
      r ← deref this;
      match r with
      | Some (l, o) =>
          if o_frozen o then throw TypeError
          else (_ ← put_items l o (reverse (o_items o)); mret this)
      | None => throw TypeError
      end
  | Shift =>
      r ← deref this;
      match r with
      | Some (l, o) =>
          if o_frozen o then throw TypeError
          else match o_items o with
               | [] => mret VUndef
               | x :: xs => _ ← put_items l o xs; mret x
               end
      | None => throw TypeError
      end
  | Unshift items =>
      r ← deref this;
      match r with
      | Some (l, o) =>
          if o_frozen o then throw TypeError
          else (_ ← put_items l o (items ++ o_items o);
                mret (VNum (Z.of_nat (length (items ++ o_items o)))))
      | None => throw TypeError
      end
  end.

(** ** Sentence *)

(** Modelled from the spec: [JVM.toJsArray(collection, f)] of the bridge,
    which is not part of this module; section 6 has the foreign collections
    ordered, so [f] is applied to the members in order and the results make
    a new array. *)
Definition toJsArray {A} (collection : list A) (f : A -> M val) : M val :=
  vs ← map_M f collection;
  a ← new_object CArray vs;
  mret (VRef a).

(** [Sentence._getWord] *)
Definition Sentence_getWord (this : val) (jword : option JWord) : M val :=
  match jword with
  | Some w => get_index this (jw_id w)
  | None => mret VUndef
  end.

(** [Sentence._getMorph] *)
Definition Sentence_getMorph (this : val) (jmorph : option JMorpheme)
  : M val :=
  match jmorph with
  | Some m =>
      w ← get_index this (jm_word_id m);
      _ ← deref w;
      get_index w (jm_id m)
  | None => mret VUndef
  end.

(** [Sentence._reconSyntaxTree] on a defined foreign tree *)
Fixpoint Sentence_reconTree (this : val) (jtree : JTree) : M val :=
  match jtree with
  | JNode handle label terminal children originalLabel =>
      term ← match terminal with
             | Some w => Sentence_getWord this (Some w)
             | None => mret VUndef
             end;
      nonTerms ←
        match children with
        | [] => mret VUndef
        | _ =>
            vs ← (fix recon_all (cs : list JTree) : M (list val) :=
                    match cs with
                    | [] => mret []
                    | c :: cs' =>
                        v ← Sentence_reconTree this c;
                        vs ← recon_all cs';
                        mret (v :: vs)
                    end) children;
            a ← new_object CArray vs;
            mret (VRef a)
        end;
      tree ← SyntaxTree_new (VStr label) term nonTerms
               (getOrUndefined originalLabel);
      _ ← set_reference tree (VJava handle);
      mret tree
  end.

Definition Sentence_reconSyntaxTree (this : val) (jtree : option JTree)
  : M val :=
  match jtree with
  | Some t => Sentence_reconTree this t
  | None => mret VUndef
  end.

(** [Sentence._getDepEdge] *)
Definition Sentence_getDepEdge (this : val) (e : JDepEdge) : M val :=
  governor ← Sentence_getWord this (jd_governor e);
  dependent ← Sentence_getWord this (jd_dependent e);
  edge ← DepEdge_new governor dependent (VStr (jd_type e))
           (getOrUndefined (jd_depType e))
           (getOrUndefined (jd_originalLabel e));
  _ ← set_reference edge (VJava (jd_handle e));
  mret edge.

(** [Sentence._getRole] *)
Definition Sentence_getRole (this : val) (e : JRoleEdge) : M val :=
  predicate ← Sentence_getWord this (jr_predicate e);
  argument ← Sentence_getWord this (jr_argument e);
  modifiers ← toJsArray (jr_modifiers e) (Sentence_getWord this);
  edge ← RoleEdge_new predicate argument (VStr (jr_label e)) modifiers
           (getOrUndefined (jr_originalLabel e));
  _ ← set_reference edge (VJava (jr_handle e));
  mret edge.

(** [Sentence._getEntity] *)
Definition Sentence_getEntity (this : val) (e : JEntity) : M val :=
  morphemes ← toJsArray (je_morphemes e) (Sentence_getMorph this);
  enty ← Entity_new (je_surface e) (VStr (je_label e)) (je_fineLabel e)
           morphemes (getOrUndefined (je_originalLabel e));
  _ ← set_reference enty (VJava (je_handle e));
  mret enty.

(** [array.find(predicate)] *)
Fixpoint find_first (predicate : val -> M bool) (items : list val) : M val :=
  match items with
  | [] => mret VUndef
  | x :: items' =>
      predicate x ≫= (fun b : bool =>
        if b then mret x else find_first predicate items')
  end.

(** [Sentence._getCorefGroup].  The entity built from [e] is bound to
    [referenced] and not used again: the lookup compares every entity of
    the sentence with the foreign [e] itself. *)
Definition Sentence_getCorefGroup (this : val) (c : JCorefGroup) : M val :=
  members ← toJsArray (jc_entities c) (fun e =>
     referenced ← Sentence_getEntity this e;
     entities ← get_prop this "entities";
     items ← spread entities;
     find_first (fun enty => equals enty (VJava (je_handle e))) items);
  coref ← CoreferenceGroup_new members;
  _ ← set_reference coref (VJava (jc_handle c));
  mret coref.

(** The class fields and accessors of a Sentence, set up after [super]. *)
Definition Sentence_fields (this : val) : M unit :=
  _ ← init_field this "syntaxTree" VUndef;
  _ ← init_array_field this "dependencies";
  _ ← init_array_field this "roles";
  _ ← init_array_field this "entities";
  _ ← init_array_field this "corefGroups";
  _ ← writeonlyonce this ["syntaxTree"];
  replaceableifempty this ["dependencies"; "roles"; "entities"; "corefGroups"].

(** [new Sentence(words, reference)] *)
Definition Sentence_new (words : val) (reference : option JSentence)
  : M val :=
  wordsOk ← (if isDefined words then isArray words else mret false);
  _ ← console_assert (wordsOk || bool_decide (is_Some reference)) "Sentence";
  this ←
    match reference with
    | Some ref =>
        words' ← toJsArray (js_words ref) (fun w =>
           ms ← toJsArray (jw_morphemes w) (fun m =>
                  Morpheme_new (jm_surface m) (VStr (jm_tag m))
                               (jm_originalTag m) (VJava (jm_handle m)));
           Word_new (jw_surface w) ms (VJava (jw_handle w)));
        this ← ImmutableArray_new CSentence words';
        _ ← Sentence_fields this;
        tree ← Sentence_reconSyntaxTree this (js_syntaxTree ref);
        _ ← set_prop this "syntaxTree" tree;
        deps ← toJsArray (js_dependencies ref) (Sentence_getDepEdge this);
        _ ← set_prop this "dependencies" deps;
        roles ← toJsArray (js_roles ref) (Sentence_getRole this);
        _ ← set_prop this "roles" roles;
        entities ← toJsArray (js_entities ref) (Sentence_getEntity this);
        _ ← set_prop this "entities" entities;
        corefs ← toJsArray (js_corefGroups ref) (Sentence_getCorefGroup this);
        _ ← set_prop this "corefGroups" corefs;
        _ ← set_reference this (VJava (js_handle ref));
        mret this
    | None =>
        this ← ImmutableArray_new CSentence words;
        _ ← Sentence_fields this;
        mret this
    end;
  items ← spread this;
  _ ← for_entries 0 items (fun i word => set_prop word "id" (VNum i));
  mret this.

(** [Sentence.fromJava] *)
Definition Sentence_fromJava (ref : JSentence) : M val :=
  Sentence_new VUndef (Some ref).

End Store.

(** ** Queries over a constructed graph

    [getTerminals] and the lexical-class queries only read the graph: a
    tree is read as the finite tree of its nodes, a sentence as the list of
    its words, a word as the list of its morphemes. *)

Record morpheme := Morph {
  m_surface : string;
  m_tag : string                (* the field [_tag] *)
}.

Record word := Wd {
  w_surface : string;
  w_id : option Z;              (* [id]: a number, or [None] for undefined *)
  w_morphemes : list morpheme
}.

#[warnings="-register-all"] Inductive tree :=
| Node (label : string) (terminal : option word) (children : list tree).

(** *** Array.prototype.sort

    [SortCompare] turns a NaN answer of the comparison function into [+0].
    The sort is the stable insertion sort: elements are taken in order and
    each goes in front of the first element it is strictly smaller than. *)
Definition sort_compare {A} (compareFn : A -> A -> option Z) (x y : A) : Z :=
  default 0 (compareFn x y).

Fixpoint sort_insert {A} (compareFn : A -> A -> option Z) (x : A)
  (sorted : list A) : list A :=
  match sorted with
  | [] => [x]
  | y :: rest =>
      if (sort_compare compareFn x y <? 0)%Z then x :: y :: rest
      else y :: sort_insert compareFn x rest
  end.

Definition array_sort {A} (compareFn : A -> A -> option Z) (xs : list A)
  : list A :=
  fold_left (fun sorted x => sort_insert compareFn x sorted) xs [].

(** [(x, y) => x.id - y.id]; the difference is NaN when an [id] is
    undefined. *)
Definition by_id (x y : word) : option Z :=
  match w_id x, w_id y with
  | Some a, Some b => Some (a - b)%Z
  | _, _ => None
  end.

(** [Tree.getTerminals] *)
Fixpoint getTerminals (t : tree) : list word :=
  match t with
  | Node _ terminal children =>
      let leaves :=
        fold_left (fun acc child => acc ++ getTerminals child) children [] in
      let leaves :=
        match terminal with
        | Some w => leaves ++ [w]
        | None => leaves
        end in
      array_sort by_id leaves
  end.

(** The terminal words of a subtree, as the tree holds them: those of each
    child, then the node's own. *)
Fixpoint terminals (t : tree) : list word :=
  match t with
  | Node _ terminal children =>
      concat (map terminals children) ++ option_list terminal
  end.

(** The same tree with the children of any of its nodes stored in another
    order. *)
#[warnings="-register-all"] Inductive reordered : tree -> tree -> Prop :=
| reordered_node label terminal cs cs' cs'' :
    Forall2 reordered cs cs' ->
    Permutation cs' cs'' ->
    reordered (Node label terminal cs) (Node label terminal cs'').

(** [x] comes no later than [y] by position index. *)
Definition id_le (x y : word) : Prop :=
  exists a b, w_id x = Some a /\ w_id y = Some b /\ (a <= b)%Z.

(** *** Lexical classes *)

(** [_.findIndex(array, predicate)] and [_.findLastIndex(array, predicate)]:
    the first, respectively last, index whose element satisfies the
    predicate, or [-1]. *)
Fixpoint findIndex_from {A} (predicate : A -> bool) (i : Z) (xs : list A)
  : Z :=
  match xs with
  | [] => -1
  | x :: xs' =>
      if predicate x then i else findIndex_from predicate (i + 1) xs'
  end.

Definition findIndex {A} (xs : list A) (predicate : A -> bool) : Z :=
  findIndex_from predicate 0 xs.

Fixpoint findLastIndex_from {A} (predicate : A -> bool) (i : Z) (xs : list A)
  : Z :=
  match xs with
  | [] => -1
  | x :: xs' =>
      let later := findLastIndex_from predicate (i + 1) xs' in
      if (later =? -1)%Z then (if predicate x then i else -1) else later
  end.

Definition findLastIndex {A} (xs : list A) (predicate : A -> bool) : Z :=
  findLastIndex_from predicate 0 xs.

(** Modelled from the spec: the tag vocabulary [POS] of [./types] is not
    part of this module.  Section 4.2 has [hasTag]/[hasTagOneOf] test
    whether the resolved tag string starts with a prefix, case-sensitively;
    section 4.7 has the verb rule test that the tag equals XSV. *)
Definition tag_startsWith (tag partialTag : string) : bool :=
  String.prefix partialTag tag.

(** Modelled from the spec: [tag.equals(POS.XSV)] of [./types], the tag
    being the one named; section 4.7 has the tag equal XSV. *)
Definition tag_equals (tag other : string) : bool :=
  bool_decide (tag = other).

Section LexicalClasses.

(** The category rules [POS.isNoun] and [POS.isPredicate] of the tag
    vocabulary. *)
Variable pos_isNoun : string -> bool.
Variable pos_isPredicate : string -> bool.

Definition isNoun (m : morpheme) : bool := pos_isNoun (m_tag m).
Definition isPredicate (m : morpheme) : bool := pos_isPredicate (m_tag m).

(** [Morpheme.hasTagOneOf(...tags)] *)
Definition hasTagOneOf (m : morpheme) (tags : list string) : bool :=
  existsb (fun t => tag_startsWith (m_tag m) t) tags.

(** [get nouns()] *)
Definition nouns (this : list word) : list word :=
  List.filter (fun word =>
    let inclusion := findIndex (w_morphemes word)
      (fun m => isNoun m || hasTagOneOf m ["ETN"; "XSN"]) in
    let exclusion := findLastIndex (w_morphemes word)
      (fun m => hasTagOneOf m ["XSV"; "XSA"; "XSM"]) in
    negb (inclusion =? -1)%Z && (exclusion <? inclusion)%Z) this.

(** [get verbs()] *)
Definition verbs (this : list word) : list word :=
  List.filter (fun word =>
    let inclusion := findIndex (w_morphemes word)
      (fun m => isPredicate m || tag_equals (m_tag m) "XSV") in
    let exclusion := findLastIndex (w_morphemes word)
      (fun m => hasTagOneOf m ["ETN"; "ETM"; "XSN"; "XSA"; "XSM"]) in
    negb (inclusion =? -1)%Z && (exclusion <? inclusion)%Z) this.

(** [get modifiers()] *)
Definition modifiers (this : list word) : list word :=
  List.filter (fun word =>
    let inclusion := findIndex (w_morphemes word)
      (fun m => isPredicate m || hasTagOneOf m ["ETM"; "XSA"; "XSM"]) in
    let exclusion := findLastIndex (w_morphemes word)
      (fun m => hasTagOneOf m ["ETN"; "XSN"; "XSV"]) in
    negb (inclusion =? -1)%Z && (exclusion <? inclusion)%Z) this.

End LexicalClasses.

(** The first index satisfying [inclusion] exists and lies strictly after
    every index satisfying [exclusion], the last one in particular. *)
Definition included_after_excluded
  (inclusion exclusion : morpheme -> bool) (ms : list morpheme) : Prop :=
  exists (i : nat) m,
    ms !! i = Some m /\ inclusion m = true
    /\ (forall (j : nat) m',
          ms !! j = Some m' -> inclusion m' = true -> (i <= j)%nat)
    /\ (forall (j : nat) m',
          ms !! j = Some m' -> exclusion m' = true -> (j < i)%nat).

(** ** Observing the store *)

(** The value of the property [p] of an object, as a getter or a plain
    read yields it. *)
Definition field (o : object) (p : string) : val :=
  from_option slot_value VUndef (o_props o !! p).

Definition is_edge_class (c : class) : bool :=
  match c with
  | CDAGEdge | CDepEdge | CRoleEdge => true
  | _ => false
  end.

(** The object at [l]. *)
Definition object_at (st : state) (l : loc) : object :=
  default (Object CArray ∅ [] false) (heap st !! l).

(** The one-time-write assertion lets an assignment over [value] through:
    always on a standard host, and on a legacy host when [value] is not
    defined yet. *)
Definition writable (host : Host) (value : val) : Prop :=
  assert_mode host = LegacyAssert -> isDefined value = false.

(** [l] is an object with the one-time-write fields of a Morpheme,
    respectively of a Word, each open to an assignment. *)
Definition morpheme_at (host : Host) (st : state) (l : loc) : Prop :=
  exists o v1 v2,
    heap st !! l = Some o
    /\ o_props o !! "word" = Some (WriteOnce v1)
    /\ o_props o !! "id" = Some (WriteOnce v2)
    /\ writable host v1 /\ writable host v2.

Definition word_at_loc (host : Host) (st : state) (l : loc) : Prop :=
  exists o v,
    heap st !! l = Some o
    /\ o_props o !! "id" = Some (WriteOnce v)
    /\ writable host v.

(** A property that a plain assignment creates or overwrites. *)
Definition plain_slot (s : option slot) : bool :=
  match s with
  | None | Some (Data _) => true
  | _ => false
  end.

(** ** Scenarios

    Programs over the constructors above, run from the empty store. *)

Definition empty_store : state := State [] [].

(** A host whose JVM answers nothing of interest. *)
Definition node (rt : runtime) : Host :=
  {| assert_mode := rt;
     jvm_construct := fun _ _ => 0%nat;
     jvm_call := fun _ _ => VNull;
     jvm_prop := fun _ _ => VUndef;
     underscore_eq := fun _ _ _ _ => false |}.

Section Scenarios.

Variable host : Host.

(** An array literal [[v1, ..., vn]]. *)
Definition array_literal (vs : list val) : M val :=
  a ← new_object CArray vs; mret (VRef a).

(** [new Word("a", [new Morpheme("a", "NNG")])] *)
Definition one_word (surface tag : string) : M (val * val * val) :=
  m ← Morpheme_new host (VStr surface) (VStr tag) VUndef VUndef;
  ms ← array_literal [m];
  w ← Word_new host (VStr surface) ms VUndef;
  mret (m, ms, w).

(** A Word is constructed, then [phrase] is assigned twice with different
    trees; the result is the two trees and what [phrase] reads afterwards. *)
Definition assign_phrase_twice : M (val * val * val) :=
  '(_, _, w) ← one_word "a" "NNG";
  none ← array_literal [];
  t1 ← Tree_new host CTree (VStr "NP") VUndef none;
  t2 ← Tree_new host CTree (VStr "VP") VUndef none;
  _ ← set_prop host w "phrase" t1;
  _ ← set_prop host w "phrase" t2;
  p ← get_prop host w "phrase";
  mret (t1, t2, p).

(** Every one-time-write field is set once by a constructor and then
    assigned again; the result is the list of the values assigned second and
    the list of what the eight fields read afterwards. *)
Definition assign_every_field_twice : M (list val * list val) :=
  '(m, ms, w) ← one_word "a" "NNG";
  '(_, _, w') ← one_word "b" "NNG";
  ws ← array_literal [w];
  s ← Sentence_new host ws None;
  leaf ← SyntaxTree_new host (VStr "NP") w VUndef VUndef;
  leaves ← array_literal [leaf];
  root ← SyntaxTree_new host (VStr "S") VUndef leaves VUndef;
  _ ← set_prop host s "syntaxTree" root;
  d ← DepEdge_new host VUndef w (VStr "S") (VStr "ROOT") VUndef;
  d' ← DAGEdge_new host CDAGEdge VUndef w' (VStr "ROOT");
  e ← Entity_new host (VStr "a") (VStr "PS") (VStr "PS_NAME") ms VUndef;
  es ← array_literal [e];
  g ← CoreferenceGroup_new host es;
  none ← array_literal [];
  g' ← CoreferenceGroup_new host none;
  _ ← set_prop host m "id" (VNum 7);
  _ ← set_prop host m "word" w';
  _ ← set_prop host w "id" (VNum 7);
  _ ← set_prop host w "phrase" root;
  _ ← set_prop host w "governorEdge" d';
  _ ← set_prop host leaf "parent" leaf;
  _ ← set_prop host e "corefGroup" g';
  _ ← set_prop host s "syntaxTree" leaf;
  v1 ← get_prop host m "id";
  v2 ← get_prop host m "word";
  v3 ← get_prop host w "id";
  v4 ← get_prop host w "phrase";
  v5 ← get_prop host w "governorEdge";
  v6 ← get_prop host leaf "parent";
  v7 ← get_prop host e "corefGroup";
  v8 ← get_prop host s "syntaxTree";
  mret ([VNum 7; w'; VNum 7; root; d'; leaf; g'; leaf],
        [v1; v2; v3; v4; v5; v6; v7; v8]).

(** Constructions with a required argument missing or empty, each run on
    its own from the store that holds a word [w] over the morphemes [ms], a
    free morpheme in [ms'] and the empty array [none]; the result is the
    outcome of each. *)
Definition missing_field_setup : M (val * val * val * val) :=
  '(_, ms, w) ← one_word "a" "NNG";
  m' ← Morpheme_new host (VStr "b") (VStr "NNG") VUndef VUndef;
  ms' ← array_literal [m'];
  none ← array_literal [];
  mret (w, ms, ms', none).

Definition missing_field_cases (w ms ms' none : val) : list (M val) :=
  [ DAGEdge_new host CDAGEdge w VUndef (VStr "x");
    DepEdge_new host w VUndef (VStr "NP") (VStr "SBJ") VUndef;
    RoleEdge_new host w VUndef (VStr "ARG0") none VUndef;
    RoleEdge_new host VUndef w (VStr "ARG0") none VUndef;
    RoleEdge_new host w w VUndef none VUndef;
    Word_new host VUndef ms' VUndef;
    Word_new host (VStr "c") none VUndef;
    Entity_new host VUndef (VStr "PS") (VStr "PS_NAME") ms VUndef;
    Entity_new host (VStr "a") VUndef (VStr "PS_NAME") ms VUndef;
    Entity_new host (VStr "a") (VStr "PS") VUndef ms VUndef;
    Entity_new host (VStr "a") (VStr "PS") (VStr "PS_NAME") VUndef VUndef ].

Definition outcomes_of (cases : list (M val)) : M (list (outcome val)) :=
  fun st => (Returns (map (fun case => fst (case st)) cases), st).

Definition construct_with_missing_fields : M (list (outcome val)) :=
  '(w, ms, ms', none) ← missing_field_setup;
  outcomes_of (missing_field_cases w ms ms' none).

(** A Word of two morphemes is reversed, shifted and unshifted; the result
    is the two morphemes and the elements after each call. *)
Definition mutate_word : M (val * val * list (list val)) :=
  m0 ← Morpheme_new host (VStr "a") (VStr "NNG") VUndef VUndef;
  m1 ← Morpheme_new host (VStr "b") (VStr "JX") VUndef VUndef;
  ms ← array_literal [m0; m1];
  w ← Word_new host (VStr "ab") ms VUndef;
  _ ← ImmutableArray_call w Reverse;
  after_reverse ← spread w;
  _ ← ImmutableArray_call w Shift;
  after_shift ← spread w;
  _ ← ImmutableArray_call w (Unshift [m0; m0]);
  after_unshift ← spread w;
  mret (m0, m1, [after_reverse; after_shift; after_unshift]).

(** Two morphemes that belong to no word yet, in an array; and two words
    that belong to no sentence yet, in an array. *)
Definition two_morphemes : M val :=
  m0 ← Morpheme_new host (VStr "a") (VStr "NNG") VUndef VUndef;
  m1 ← Morpheme_new host (VStr "b") (VStr "JX") VUndef VUndef;
  array_literal [m0; m1].

Definition two_words : M val :=
  '(_, _, w0) ← one_word "a" "NNG";
  '(_, _, w1) ← one_word "b" "VV";
  array_literal [w0; w1].

(** A Word built from the same morpheme twice; the result is the element at
    index 0 and its [id]. *)
Definition word_of_repeated_morpheme : M (val * val * val) :=
  m ← Morpheme_new host (VStr "a") (VStr "NNG") VUndef VUndef;
  ms ← array_literal [m; m];
  w ← Word_new host (VStr "aa") ms VUndef;
  m0 ← get_index w 0;
  i ← get_prop host m0 "id";
  mret (m, m0, i).

(** Two Sentences sharing a Word; the result is the [id] of the word at
    index 1 of the first sentence. *)
Definition sentences_sharing_a_word : M val :=
  '(_, _, w0) ← one_word "a" "NNG";
  '(_, _, w1) ← one_word "b" "NNG";
  ws ← array_literal [w0; w1];
  s ← Sentence_new host ws None;
  ws' ← array_literal [w1];
  s' ← Sentence_new host ws' None;
  x ← get_index s 1;
  get_prop host x "id".

(** Comparisons across classes: an empty CoreferenceGroup with an empty
    Sentence, a Word with an Entity over the same morphemes and surface, a
    RoleEdge with a DepEdge carrying the same label, source and destination,
    and a plain DAGEdge with such a DepEdge. *)
Definition compare_across_classes : M (list bool) :=
  '(_, ms, w) ← one_word "a" "NNG";
  '(_, _, w') ← one_word "b" "NNG";
  none ← array_literal [];
  g ← CoreferenceGroup_new host none;
  s ← Sentence_new host none None;
  b1 ← equals host g s;
  e ← Entity_new host (VStr "a") (VStr "PS") (VStr "PS_NAME") ms VUndef;
  b2 ← equals host w e;
  dep ← DepEdge_new host w w' (VStr "NP") (VStr "SBJ") VUndef;
  role ← RoleEdge_new host w w' (VStr "SBJ") none VUndef;
  b3 ← equals host role dep;
  edge ← DAGEdge_new host CDAGEdge w w' (VStr "SBJ");
  b4 ← equals host edge dep;
  mret [b1; b2; b3; b4].

(** Two Entities over the same morphemes, with the same labels and
    different surfaces. *)
Definition two_entities : M (val * val) :=
  '(_, ms, _) ← one_word "a" "NNG";
  e1 ← Entity_new host (VStr "a") (VStr "PS") (VStr "PS_NAME") ms VUndef;
  e2 ← Entity_new host (VStr "A.") (VStr "PS") (VStr "PS_NAME") ms VUndef;
  mret (e1, e2).

(** A root DepEdge and a DepEdge of the same type and another label. *)
Definition root_edge_and_other : M (val * val) :=
  '(_, _, w) ← one_word "a" "NNG";
  '(_, _, w') ← one_word "b" "NNG";
  r ← DepEdge_new host VUndef w (VStr "NP") (VStr "ROOT") VUndef;
  d ← DepEdge_new host w w' (VStr "NP") (VStr "SBJ") VUndef;
  mret (r, d).

Definition compare_root_edge : M bool :=
  '(r, d) ← root_edge_and_other;
  equals host r d.

End Scenarios.

(** A foreign sentence of one word, one entity over its morpheme, and one
    coreference group holding that entity. *)
Definition foreign_morpheme : JMorpheme :=
  {| jm_handle := 1; jm_surface := VStr "Kim"; jm_tag := "NNP";
     jm_originalTag := VNull; jm_id := 0; jm_word_id := 0 |}.

Definition foreign_word : JWord :=
  {| jw_handle := 2; jw_surface := VStr "Kim"; jw_id := 0;
     jw_morphemes := [foreign_morpheme] |}.

Definition foreign_entity : JEntity :=
  {| je_handle := 3; je_surface := VStr "Kim"; je_label := "PS";
     je_fineLabel := VStr "PS_NAME";
     je_morphemes := [Some foreign_morpheme]; je_originalLabel := VNull |}.

Definition foreign_group : JCorefGroup :=
  {| jc_handle := 4; jc_entities := [foreign_entity] |}.

Definition foreign_sentence (groups : list JCorefGroup) : JSentence :=
  {| js_handle := 5; js_words := [foreign_word]; js_syntaxTree := None;
     js_dependencies := []; js_roles := []; js_entities := [foreign_entity];
     js_corefGroups := groups |}.

(** Sample trees over three words at positions 0, 1 and 2: the same phrase
    structure with the children stored in two different orders. *)
Definition word_at (i : Z) : word :=
  {| w_surface := "w"; w_id := Some i; w_morphemes := [Morph "w" "NNG"] |}.

Definition leaf_at (i : Z) : tree := Node "NP" (Some (word_at i)) [].

Definition sample_tree : tree :=
  Node "S" (Some (word_at 2)) [leaf_at 1; Node "VP" None [leaf_at 0]].

Definition sample_tree_reordered : tree :=
  Node "S" (Some (word_at 2)) [Node "VP" None [leaf_at 0]; leaf_at 1].


(** ** Renderings

    The string methods read the graph like the queries above.  A template
    literal concatenates its parts; [Array.prototype.join] puts the separator
    between the elements. *)

Fixpoint join (separator : string) (parts : list string) : string :=
  match parts with
  | [] => ""
  | [x] => x
  | x :: rest => x +:+ separator +:+ join separator rest
  end.

(** [Word.singleLineString] *)
Definition Word_singleLineString (this : word) : string :=
  join "+" (map (fun m => m_surface m +:+ "/" +:+ m_tag m) (w_morphemes this)).

(** [Word.toString] *)
Definition Word_toString (this : word) : string :=
  w_surface this +:+ " = " +:+ Word_singleLineString this.

(** [Sentence.surfaceString(delimiter)] *)
Definition surfaceString (this : list word) (delimiter : string) : string :=
  join delimiter (map w_surface this).

(** [Sentence.singleLineString] *)
Definition Sentence_singleLineString (this : list word) : string :=
  join " " (map Word_singleLineString this).

(** [Sentence.toString] *)
Definition Sentence_toString (this : list word) : string :=
  surfaceString this " ".

(** [Tree.toString]: the label, then the terminal word's own rendering
    when there is one. *)
Definition Tree_toString (this : tree) : string :=
  match this with
  | Node label terminal _ =>
      label +:+ "-Node("
      +:+ match terminal with
          | Some w => Word_toString w
          | None => ""
          end
      +:+ ")"
  end.

(** ["| ".repeat(depth)] *)
Fixpoint indent (depth : nat) : string :=
  match depth with
  | O => ""
  | S d => "| " +:+ indent d
  end.

(** The line break ['\n']. *)
Definition newline : string := String (Ascii.ascii_of_nat 10) "".

(** [Tree.getTreeString(depth, buffer)] for a depth that is a natural
    number. *)
Fixpoint getTreeString (this : tree) (depth : nat) (buffer : string)
  : string :=
  match this with
  | Node label terminal children =>
      let buffer := buffer +:+ indent depth in
      let buffer := buffer +:+ Tree_toString (Node label terminal children) in
      fold_left
        (fun buffer child =>
           let buffer := buffer +:+ newline in
           getTreeString child (depth + 1) buffer)
        children buffer
  end.

(** [getTreeString] called with any integer depth: [repeat] throws a
    RangeError on a negative count. *)
Definition Tree_getTreeString (this : tree) (depth : Z) (buffer : string)
  : outcome string :=
  if (depth <? 0)%Z then Throws RangeError
  else Returns (getTreeString this (Z.to_nat depth) buffer).

(** The nodes of a tree in pre-order, each rendered on a line of its own
    behind one indent marker per level. *)
Fixpoint tree_lines (depth : nat) (t : tree) : list string :=
  match t with
  | Node label terminal children =>
      (indent depth +:+ Tree_toString (Node label terminal children))
      :: flat_map (tree_lines (depth + 1)) children
  end.

Fixpoint tree_size (t : tree) : nat :=
  match t with
  | Node _ _ children => S (list_sum (map tree_size children))
  end.

(** [Morpheme.hasTag(partialTag)] *)
Definition hasTag (m : morpheme) (partialTag : string) : bool :=
  tag_startsWith (m_tag m) partialTag.

(** ** Observing links

    [l] is an object whose property [p] was installed by [writeonlyonce]
    and is open to an assignment. *)
Definition write_once_at (host : Host) (st : state) (p : string) (l : loc)
  : Prop :=
  exists o v,
    heap st !! l = Some o
    /\ o_props o !! p = Some (WriteOnce v)
    /\ writable host v.

(** [l] is an object whose property [p] holds a plain array that is not
    frozen, as a class field [p = []] leaves it. *)
Definition array_field_at (st : state) (p : string) (l : loc) : Prop :=
  exists o a oa,
    heap st !! l = Some o
    /\ field o p = VRef a
    /\ heap st !! a = Some oa
    /\ o_class oa = CArray
    /\ o_frozen oa = false.

(** [Tree.isRoot] *)
Definition Tree_isRoot (host : Host) (this : val) : M bool :=
  parent ← get_prop host this "parent";
  mret (negb (isDefined parent)).

(** [Tree.hasNonTerminals] *)
Definition Tree_hasNonTerminals (host : Host) (this : val) : M bool :=
  len ← get_prop host this "length";
  mret (gt_zero len).

(** What a step of a constructor may do to the objects that existed
    before: an object keeps its class and its elements, and every property
    other than [p]; outside [ls] it is not touched at all. *)
Definition touches_only (p : string) (ls : list loc) (st st' : state)
  : Prop :=
  forall l o, heap st !! l = Some o ->
    exists o', heap st' !! l = Some o'
      /\ o_class o' = o_class o
      /\ o_items o' = o_items o
      /\ o_frozen o' = o_frozen o
      /\ (forall q, q <> p -> o_props o' !! q = o_props o !! q)
      /\ (l ∉ ls -> o' = o).


(** What the pushes of a constructor may do to the objects that existed
    before: an object keeps its class and its properties, and its elements
    are followed by [x] some number of times, none unless it is a plain
    array. *)
Definition appends_only (x : val) (st st' : state) : Prop :=
  forall l o, heap st !! l = Some o ->
    exists o' (k : nat), heap st' !! l = Some o'
      /\ o_class o' = o_class o
      /\ o_props o' = o_props o
      /\ o_frozen o' = o_frozen o
      /\ o_items o' = o_items o ++ replicate k x
      /\ (o_class o <> CArray -> k = 0%nat).

(** The array held in the property [p] of the object at [l] ends with
    [x]. *)
Definition last_of_field (st : state) (p : string) (l : loc) (x : val)
  : Prop :=
  exists o a oa,
    heap st !! l = Some o
    /\ field o p = VRef a
    /\ heap st !! a = Some oa
    /\ last (o_items oa) = Some x.

(** ** Further scenarios *)

(** Two leaves of a syntax tree, each over a word of its own, in an array;
    and the two entities of [two_entities] in an array. *)
Definition two_leaves (host : Host) : M val :=
  '(_, _, w0) ← one_word host "a" "NNG";
  '(_, _, w1) ← one_word host "b" "VV";
  t0 ← SyntaxTree_new host (VStr "NP") w0 VUndef VUndef;
  t1 ← SyntaxTree_new host (VStr "VP") w1 VUndef VUndef;
  array_literal [t0; t1].

Definition entities_in_array (host : Host) : M val :=
  '(e1, e2) ← two_entities host;
  array_literal [e1; e2].

(** A sentence of the two words of [two_words]. *)
Definition sentence_of_two_words (host : Host) : M val :=
  ws ← two_words host;
  Sentence_new host ws None.

(** ** Trees: induction over the children of every node *)

Section TreeInduction.

Variable P : tree -> Prop.
Hypothesis P_node : forall label terminal children,
  Forall P children -> P (Node label terminal children).

Fixpoint tree_forall_ind (t : tree) : P t :=
  match t with
  | Node label terminal children =>
      P_node label terminal children
        ((fix all (cs : list tree) : Forall P cs :=
            match cs with
            | [] => @List.Forall_nil tree P
            | c :: cs' =>
                @List.Forall_cons tree P c cs' (tree_forall_ind c) (all cs')
            end) children)
  end.

End TreeInduction.

(** * Properties *)

(** ** Sorting *)

Section Sorting.

Context {A : Type}.
Variable compareFn : A -> A -> option Z.

Lemma sort_insert_perm (x : A) (l : list A) :
  Permutation (sort_insert compareFn x l) (x :: l).
Proof.
  induction l as [|y l IH]; simpl; [reflexivity|].
  destruct (sort_compare compareFn x y <? 0)%Z; [reflexivity|].
  rewrite IH. apply perm_swap.
Qed.

Lemma sort_fold_perm (xs acc : list A) :
  Permutation
    (fold_left (fun sorted x => sort_insert compareFn x sorted) xs acc)
    (acc ++ xs).
Proof.
  revert acc; induction xs as [|x xs IH]; intros acc; simpl.
  - by rewrite app_nil_r.
  - rewrite IH, sort_insert_perm.
    change (Permutation ((x :: acc) ++ xs) (acc ++ x :: xs)).
    apply Permutation_middle.
Qed.

Lemma array_sort_perm (xs : list A) :
  Permutation (array_sort compareFn xs) xs.
Proof. unfold array_sort. by rewrite sort_fold_perm. Qed.

End Sorting.

Lemma id_le_trans (x y z : word) : id_le x y -> id_le y z -> id_le x z.
Proof.
  intros (a & b & Ha & Hb & Hab) (b' & c & Hb' & Hc & Hbc).
  exists a, c. repeat split; try done. rewrite Hb in Hb'. injection Hb' as <-.
  lia.
Qed.

Lemma sort_insert_sorted (x : word) (l : list word) :
  is_Some (w_id x) ->
  Forall (fun w => is_Some (w_id w)) l ->
  StronglySorted id_le l ->
  StronglySorted id_le (sort_insert by_id x l).
Proof.
  intros [a Ha] Hl Hs. induction Hs as [|y l Hs IH Hy]; simpl.
  - repeat constructor.
  - inversion Hl as [|? ? [b Hb] Hl']; subst.
    unfold sort_compare, by_id. rewrite Ha, Hb. simpl.
    destruct (Z.ltb_spec (a - b) 0).
    + constructor; [by constructor|].
      assert (Hxy : id_le x y) by (exists a, b; repeat split; try done; lia).
      constructor; [done|].
      eapply Forall_impl; [exact Hy|]. intros z Hz.
      eapply id_le_trans; eauto.
    + constructor; [by apply IH|].
      rewrite sort_insert_perm. constructor; [|done].
      exists b, a. repeat split; try done. lia.
Qed.

Lemma array_sort_sorted (xs : list word) :
  Forall (fun w => is_Some (w_id w)) xs ->
  StronglySorted id_le (array_sort by_id xs).
Proof.
  unfold array_sort.
  assert (Hgen : forall acc,
    Forall (fun w => is_Some (w_id w)) acc ->
    StronglySorted id_le acc ->
    Forall (fun w => is_Some (w_id w)) xs ->
    StronglySorted id_le
      (fold_left (fun sorted x => sort_insert by_id x sorted) xs acc)).
  { induction xs as [|x xs IH]; intros acc Hacc Hs Hxs; simpl; [done|].
    inversion Hxs; subst. apply IH; [| |done].
    - rewrite sort_insert_perm. by constructor.
    - by apply sort_insert_sorted. }
  intros Hxs. apply Hgen; [constructor|constructor|done].
Qed.

(** Two sorted arrangements of the same words coincide when no two of the
    words share a position index. *)
Lemma sorted_unique (l1 l2 : list word) :
  StronglySorted id_le l1 ->
  StronglySorted id_le l2 ->
  Permutation l1 l2 ->
  NoDup (map w_id l1) ->
  l1 = l2.
Proof.
  revert l2. induction l1 as [|x l1 IH]; intros l2 H1 H2 Hp Hnd.
  - apply Permutation_nil in Hp. by subst.
  - destruct l2 as [|y l2].
    { symmetry in Hp. by apply Permutation_nil in Hp. }
    inversion H1 as [|? ? H1' Hx]; subst.
    inversion H2 as [|? ? H2' Hy]; subst.
    assert (Hxy : x = y).
    { assert (Hin1 : In y (x :: l1)).
      { eapply Permutation_in; [symmetry; exact Hp|]. by left. }
      assert (Hin2 : In x (y :: l2)).
      { eapply Permutation_in; [exact Hp|]. by left. }
      destruct Hin1 as [->|Hin1]; [done|].
      destruct Hin2 as [->|Hin2]; [done|].
      rewrite Forall_forall in Hx, Hy.
      destruct (Hx y) as (a & b & Ha & Hb & Hab).
      { by apply list_elem_of_In. }
      destruct (Hy x) as (b' & a' & Hb' & Ha' & Hba).
      { by apply list_elem_of_In. }
      rewrite Ha in Ha'. rewrite Hb in Hb'.
      injection Ha' as <-. injection Hb' as <-.
      assert (a = b) by lia. subst b.
      simpl in Hnd. apply NoDup_cons in Hnd as [Hnot _].
      exfalso. apply Hnot. rewrite Ha, <- Hb.
      apply list_elem_of_In, in_map, Hin1. }
    subst y. f_equal. apply IH; [done|done| |].
    + by apply Permutation_cons_inv in Hp.
    + simpl in Hnd. by apply NoDup_cons in Hnd as [_ ?].
Qed.

(** ** getTerminals *)

Lemma gather_fold {A B} (f : A -> list B) (cs : list A) (init : list B) :
  fold_left (fun acc child => acc ++ f child) cs init
  = init ++ concat (map f cs).
Proof.
  revert init; induction cs as [|c cs IH]; intros init; simpl.
  - by rewrite app_nil_r.
  - by rewrite IH, app_assoc.
Qed.

Lemma getTerminals_unfold label terminal children :
  getTerminals (Node label terminal children)
  = array_sort by_id
      (concat (map getTerminals children) ++ option_list terminal).
Proof.
  simpl. rewrite gather_fold. simpl.
  destruct terminal; simpl; [done|by rewrite app_nil_r].
Qed.

Lemma concat_map_perm {A B} (f g : A -> list B) (cs : list A) :
  Forall (fun c => Permutation (f c) (g c)) cs ->
  Permutation (concat (map f cs)) (concat (map g cs)).
Proof.
  induction 1 as [|c cs Hc _ IH]; simpl; [done|].
  by apply Permutation_app.
Qed.

Lemma concat_map_reorder {A B} (f : A -> list B) (cs cs' : list A) :
  Permutation cs cs' ->
  Permutation (concat (map f cs)) (concat (map f cs')).
Proof.
  induction 1 as [|c cs cs' _ IH|c d cs|cs1 cs2 cs3 _ IH1 _ IH2]; simpl.
  - done.
  - by apply Permutation_app_head.
  - rewrite !app_assoc. apply Permutation_app_tail, Permutation_app_comm.
  - by rewrite IH1.
Qed.

Lemma getTerminals_perm (t : tree) :
  Permutation (getTerminals t) (terminals t).
Proof.
  induction t as [label terminal children IH] using tree_forall_ind.
  rewrite getTerminals_unfold, array_sort_perm. simpl.
  apply Permutation_app_tail. by apply concat_map_perm.
Qed.

Lemma reordered_refl (t : tree) : reordered t t.
Proof.
  induction t as [label terminal children IH] using tree_forall_ind.
  apply reordered_node with (cs' := children); [|done].
  induction IH; by constructor.
Qed.

Lemma reordered_terminals (t t' : tree) :
  reordered t t' -> Permutation (terminals t) (terminals t').
Proof.
  revert t'.
  induction t as [label terminal children IH] using tree_forall_ind.
  intros t' Hr. inversion Hr as [? ? ? cs' cs'' Hcs Hperm]; subst. simpl.
  apply Permutation_app_tail.
  transitivity (concat (map terminals cs')).
  - clear Hr Hperm. induction Hcs as [|c c' cs cs' Hc _ IHcs]; simpl; [done|].
    inversion IH; subst. apply Permutation_app; auto.
  - by apply concat_map_reorder.
Qed.

Lemma getTerminals_sorted (t : tree) :
  Forall (fun w => is_Some (w_id w)) (terminals t) ->
  StronglySorted id_le (getTerminals t).
Proof.
  intros Hids. destruct t as [label terminal children].
  rewrite getTerminals_unfold. apply array_sort_sorted.
  assert (Hp : Permutation
                 (concat (map getTerminals children) ++ option_list terminal)
                 (terminals (Node label terminal children))).
  { simpl. apply Permutation_app_tail, concat_map_perm.
    apply Forall_forall. intros c _. apply getTerminals_perm. }
  by rewrite Hp.
Qed.



(** ** Lexical classes *)

Section IndexSearch.

Context {A : Type}.
Variable predicate : A -> bool.

Lemma findIndex_from_spec (i : Z) (xs : list A) :
  (findIndex_from predicate i xs = -1
   /\ forall (j : nat) x, xs !! j = Some x -> predicate x = false)
  \/ (exists (k : nat) x,
        findIndex_from predicate i xs = i + Z.of_nat k
        /\ xs !! k = Some x /\ predicate x = true
        /\ forall (j : nat) y,
             xs !! j = Some y -> predicate y = true -> (k <= j)%nat).
Proof.
  revert i; induction xs as [|x xs IH]; intros i; simpl.
  - left. split; [done|]. intros j y Hj. by destruct j.
  - destruct (predicate x) eqn:Hx.
    + right. exists 0%nat, x. repeat split; try done; [lia|].
      intros j y _ _. lia.
    + destruct (IH (i + 1)) as [[Hnone Hall]|(k & y & Hk & Hy & Hp & Hmin)].
      * left. split; [done|]. intros [|j] z Hj; simpl in Hj.
        -- by injection Hj as <-.
        -- eauto.
      * right. exists (S k), y. repeat split; try done; [lia|].
        intros [|j] z Hj Hz; simpl in Hj.
        -- injection Hj as <-. congruence.
        -- apply Hmin in Hj; [lia|done].
Qed.

Lemma findLastIndex_from_spec (i : Z) (xs : list A) :
  (0 <= i)%Z ->
  (findLastIndex_from predicate i xs = -1
   /\ forall (j : nat) x, xs !! j = Some x -> predicate x = false)
  \/ (exists (k : nat) x,
        findLastIndex_from predicate i xs = i + Z.of_nat k
        /\ xs !! k = Some x /\ predicate x = true
        /\ forall (j : nat) y,
             xs !! j = Some y -> predicate y = true -> (j <= k)%nat).
Proof.
  revert i; induction xs as [|x xs IH]; intros i Hi; simpl.
  - left. split; [done|]. intros j y Hj. by destruct j.
  - destruct (IH (i + 1)) as [[Hnone Hall]|(k & y & Hk & Hy & Hp & Hmax)];
      [lia| |].
    + rewrite Hnone. simpl. destruct (predicate x) eqn:Hx.
      * right. exists 0%nat, x. repeat split; try done; [lia|].
        intros [|j] z Hj Hz; [lia|]. simpl in Hj.
        apply Hall in Hj. congruence.
      * left. split; [done|]. intros [|j] z Hj; simpl in Hj.
        -- by injection Hj as <-.
        -- eauto.
    + rewrite Hk.
      destruct (Z.eqb_spec (i + 1 + Z.of_nat k) (-1)); [lia|].
      right. exists (S k), y. repeat split; try done; [lia|].
      intros [|j] z Hj Hz; [lia|]. simpl in Hj.
      apply Hmax in Hj; [lia|done].
Qed.

End IndexSearch.

Lemma index_comparison_iff (inclusion exclusion : morpheme -> bool)
  (ms : list morpheme) :
  negb (findIndex ms inclusion =? -1)%Z
  && (findLastIndex ms exclusion <? findIndex ms inclusion)%Z = true
  <-> included_after_excluded inclusion exclusion ms.
Proof.
  unfold findIndex, findLastIndex, included_after_excluded.
  destruct (findIndex_from_spec inclusion 0 ms)
    as [[Hi Hnone]|(i & m & Hi & Hm & Hincl & Hfirst)]; rewrite Hi.
  - split; [done|]. intros (i & m & Hm & Hincl & _).
    apply Hnone in Hm. congruence.
  - destruct (Z.eqb_spec (0 + Z.of_nat i) (-1)); [lia|]. simpl.
    destruct (findLastIndex_from_spec exclusion 0 ms)
      as [[He Hnone]|(k & x & He & Hx & Hexcl & Hlast)]; [lia| |];
      rewrite He.
    + split.
      * intros _. exists i, m. repeat split; try done.
        intros j m' Hj Hm'. apply Hnone in Hj. congruence.
      * intros _. apply Z.ltb_lt. lia.
    + split.
      * intros Hlt%Z.ltb_lt. exists i, m. repeat split; try done.
        intros j m' Hj Hm'. apply Hlast in Hj; [lia|done].
      * intros (i' & m' & Hm' & Hincl' & Hfirst' & Hafter).
        apply Z.ltb_lt.
        assert (i = i').
        { apply Hfirst in Hm'; [|done]. apply Hfirst' in Hm; [|done]. lia. }
        subst i'. apply Hafter in Hx; [lia|done].
Qed.

(** C3.  A word is among the [nouns], [verbs] or [modifiers] of a sentence
    exactly when it is a word of the sentence whose first morpheme index
    satisfying the query's inclusion predicate exists and is strictly
    greater than the last index satisfying its exclusion predicate.  A word
    tagged [NNG, XSV] is never among the nouns and always among the verbs of
    a sentence that has it. *)
Theorem lexical_class_membership
  (pos_isNoun pos_isPredicate : string -> bool) (s : list word) (w : word) :
  (In w (nouns pos_isNoun s) <->
     In w s /\
     included_after_excluded
       (fun m => isNoun pos_isNoun m || hasTagOneOf m ["ETN"; "XSN"])
       (fun m => hasTagOneOf m ["XSV"; "XSA"; "XSM"])
       (w_morphemes w))
  /\ (In w (verbs pos_isPredicate s) <->
        In w s /\
        included_after_excluded
          (fun m => isPredicate pos_isPredicate m
                    || tag_equals (m_tag m) "XSV")
          (fun m => hasTagOneOf m ["ETN"; "ETM"; "XSN"; "XSA"; "XSM"])
          (w_morphemes w))
  /\ (In w (modifiers pos_isPredicate s) <->
        In w s /\
        included_after_excluded
          (fun m => isPredicate pos_isPredicate m
                    || hasTagOneOf m ["ETM"; "XSA"; "XSM"])
          (fun m => hasTagOneOf m ["ETN"; "XSN"; "XSV"])
          (w_morphemes w))
  /\ (forall m0 m1,
        w_morphemes w = [m0; m1] -> m_tag m0 = "NNG" -> m_tag m1 = "XSV" ->
        ~ In w (nouns pos_isNoun s)
        /\ (In w s -> In w (verbs pos_isPredicate s))).
Proof.
  unfold nouns, verbs, modifiers.
  rewrite !filter_In, !index_comparison_iff.
  split; [done|]. split; [done|]. split; [done|].
  intros m0 m1 Hw H0 H1. rewrite !filter_In. split.
  - rewrite index_comparison_iff.
    intros [_ (i & m & Hm & _ & _ & Hafter)]. rewrite Hw in Hm, Hafter.
    specialize (Hafter 1%nat m1 eq_refl).
    unfold hasTagOneOf in Hafter. rewrite H1 in Hafter.
    specialize (Hafter eq_refl).
    destruct i as [|[|i]]; simpl in Hm; try lia; done.
  - intros Hin. split; [done|]. rewrite Hw.
    unfold findIndex, findLastIndex, hasTagOneOf, tag_equals. simpl.
    rewrite H0, H1. simpl.
    destruct (isPredicate pos_isPredicate m0),
             (isPredicate pos_isPredicate m1); reflexivity.
Qed.

(** ** Running computations *)

Lemma bind_unfold {A B} (m : M A) (f : A -> M B) (st : state) :
  (m ≫= f) st
  = match m st with
    | (Returns a, st') => f a st'
    | (Throws e, st') => (Throws e, st')
    end.
Proof. reflexivity. Qed.

Lemma mret_unfold {A} (a : A) (st : state) :
  mret (M := M) a st = (Returns a, st).
Proof. reflexivity. Qed.

(** One step of a computation: the bind is opened and what is known about
    its first part is used. *)
Ltac mstep :=
  rewrite bind_unfold; rewrite ?mret_unfold; cbv beta iota.
Ltac mstep_with H :=
  rewrite bind_unfold, H; rewrite ?mret_unfold; cbv beta iota.

Lemma deref_ref (l : loc) (o : object) (st : state) :
  heap st !! l = Some o -> deref (VRef l) st = (Returns (Some (l, o)), st).
Proof. intros H. unfold deref. by rewrite H. Qed.

(** ** One-time-write fields *)

(** The setter installed by [writeonlyonce], on a field that holds
    [value]: a defined [value] makes the assertion fail, which throws on a
    legacy host and leaves the store as it is, and on a standard host writes
    to the console and stores the new value. *)
Lemma set_prop_write_once (host : Host) (st : state) (l : loc) (o : object)
  (p : string) (value newValue : val) :
  heap st !! l = Some o ->
  o_props o !! p = Some (WriteOnce value) ->
  set_prop host (VRef l) p newValue st
  = let stored :=
      <[l := Object (o_class o) (<[p := WriteOnce newValue]> (o_props o))
                    (o_items o) (o_frozen o)]> (heap st) in
    if isDefined value then
      match assert_mode host with
      | LegacyAssert => (Throws AssertionError, st)
      | StandardAssert => (Returns tt, State stored (console st ++ [p]))
      end
    else (Returns tt, State stored (console st)).
Proof.
  intros Hl Hp. unfold set_prop. rewrite bind_unfold, (deref_ref l o) by done.
  rewrite Hp, bind_unfold. unfold console_assert.
  destruct (isDefined value); simpl; [|by destruct st].
  by destruct (assert_mode host).
Qed.

Lemma get_prop_ref (host : Host) (st : state) (l : loc) (o : object)
  (p : string) :
  heap st !! l = Some o ->
  p <> "length" ->
  get_prop host (VRef l) p st = (Returns (field o p), st).
Proof.
  intros Hl Hp. unfold get_prop. rewrite bind_unfold, (deref_ref l o) by done.
  by rewrite bool_decide_eq_false_2.
Qed.

(** On a standard host the second assignment to a one-time-write field
    returns, and the field reads the value assigned second. *)
Lemma write_once_overwritten (host : Host) (st : state) (l : loc)
  (o : object) (p : string) (value newValue : val) :
  assert_mode host = StandardAssert ->
  heap st !! l = Some o ->
  o_props o !! p = Some (WriteOnce value) ->
  isDefined value = true ->
  p <> "length" ->
  exists st',
    set_prop host (VRef l) p newValue st = (Returns tt, st')
    /\ get_prop host (VRef l) p st' = (Returns newValue, st').
Proof.
  intros Hrt Hl Hp Hdef Hne.
  set (o' := Object (o_class o) (<[p := WriteOnce newValue]> (o_props o))
                    (o_items o) (o_frozen o)).
  exists (State (<[l := o']> (heap st)) (console st ++ [p])). split.
  - rewrite (set_prop_write_once host st l o p value) by done.
    simpl. by rewrite Hdef, Hrt.
  - rewrite (get_prop_ref host _ l o' p); [|simpl|done].
    + unfold field, o'. simpl. by rewrite lookup_insert_eq.
    + apply list_lookup_insert_eq. by eapply lookup_lt_Some.
Qed.

(** On a legacy host it throws and the store is unchanged. *)
Lemma write_once_rejected_legacy (host : Host) (st : state) (l : loc)
  (o : object) (p : string) (value newValue : val) :
  assert_mode host = LegacyAssert ->
  heap st !! l = Some o ->
  o_props o !! p = Some (WriteOnce value) ->
  isDefined value = true ->
  set_prop host (VRef l) p newValue st = (Throws AssertionError, st).
Proof.
  intros Hrt Hl Hp Hdef.
  rewrite (set_prop_write_once host st l o p value) by done.
  simpl. by rewrite Hdef, Hrt.
Qed.

(** C1.  On a standard host, a Word is constructed and [phrase] is assigned
    two different trees: the second assignment returns, one line is written
    to the console, and [phrase] reads the second tree.  The same happens to
    each of the eight one-time-write fields: after a second assignment every
    field reads the value assigned second. *)
Theorem second_assignment_overwrites
  (jc : string -> list val -> nat) (jcall : nat -> string -> val)
  (jp : nat -> string -> val)
  (ue : state -> list (loc * loc) -> val -> val -> bool) :
  (exists t1 t2 st,
     assign_phrase_twice (Build_Host StandardAssert jc jcall jp ue) empty_store
     = (Returns (t1, t2, t2), st)
     /\ t1 <> t2 /\ console st = ["phrase"])
  /\ (exists second st,
        assign_every_field_twice (Build_Host StandardAssert jc jcall jp ue)
                                 empty_store
        = (Returns (second, second), st)
        /\ console st = ["id"; "word"; "id"; "phrase"; "governorEdge";
                         "parent"; "corefGroup"; "syntaxTree"]).
Proof.
  split.
  - exists (VRef 9%nat), (VRef 10%nat). eexists.
    split; [vm_compute; reflexivity|]. split; [discriminate|reflexivity].
  - eexists. eexists. split; [vm_compute; reflexivity|reflexivity].
Qed.

(** ** Construction with missing fields *)

(** On a legacy host each of the constructions is rejected by its
    assertion. *)
Lemma missing_fields_rejected_legacy
  (jc : string -> list val -> nat) (jcall : nat -> string -> val)
  (jp : nat -> string -> val)
  (ue : state -> list (loc * loc) -> val -> val -> bool) :
  fst (construct_with_missing_fields (Build_Host LegacyAssert jc jcall jp ue)
                                     empty_store)
  = Returns (replicate 11 (Throws AssertionError)).
Proof. vm_compute. reflexivity. Qed.

(** C4.  On a standard host a DAGEdge, a DepEdge and a RoleEdge without
    destination, a RoleEdge without predicate or without label, a Word
    without surface or with an empty morpheme list, and an Entity without
    surface, label or fine label are all constructed; only the Entity
    without morphemes is not, its spread of [undefined] being a
    TypeError. *)
Theorem missing_fields_are_constructed
  (jc : string -> list val -> nat) (jcall : nat -> string -> val)
  (jp : nat -> string -> val)
  (ue : state -> list (loc * loc) -> val -> val -> bool) :
  fst (construct_with_missing_fields
         (Build_Host StandardAssert jc jcall jp ue) empty_store)
  = Returns (replicate 10 (Returns (VRef 12%nat)) ++ [Throws TypeError]).
Proof. vm_compute. reflexivity. Qed.

(** ** Mutating methods *)

(** The five overridden methods throw and leave the store as it is. *)
Lemma overridden_mutators_throw (this : val) (m : mutator) (st : state) :
  match m with
  | Reverse | Shift | Unshift _ => True
  | _ => ImmutableArray_call this m st = (Throws Error, st)
  end.
Proof. by destruct m. Qed.

(** C5.  On every host, [reverse], [shift] and [unshift] called on a Word
    of the morphemes [m0; m1] return and change its elements: to [m1; m0],
    then [m0], then [m0; m0; m0]. *)
Theorem inherited_mutators_change_contents (host : Host) :
  exists m0 m1,
    fst (mutate_word host empty_store)
    = Returns (m0, m1, [[m1; m0]; [m0]; [m0; m0; m0]])
    /\ m0 <> m1.
Proof.
  exists (VRef 0%nat), (VRef 2%nat).
  destruct host as [[] jc jcall jp ue]; split; solve [vm_compute; reflexivity | discriminate].
Qed.

(** ** Position indices *)

(** On a legacy host the Word over a repeated morpheme is not
    constructed. *)
Lemma repeated_morpheme_rejected_legacy
  (jc : string -> list val -> nat) (jcall : nat -> string -> val)
  (jp : nat -> string -> val)
  (ue : state -> list (loc * loc) -> val -> val -> bool) :
  fst (word_of_repeated_morpheme (Build_Host LegacyAssert jc jcall jp ue)
                                 empty_store)
  = Throws AssertionError.
Proof. vm_compute. reflexivity. Qed.

(** C6.  On a standard host the Word built from the morpheme [m] twice is
    constructed and its element at index 0 has [id] 1; and after a second
    Sentence is built from the Word at index 1 of a first one, that Word has
    [id] 0. *)
Theorem shared_elements_break_indices
  (jc : string -> list val -> nat) (jcall : nat -> string -> val)
  (jp : nat -> string -> val)
  (ue : state -> list (loc * loc) -> val -> val -> bool) :
  (exists m,
     fst (word_of_repeated_morpheme
            (Build_Host StandardAssert jc jcall jp ue) empty_store)
     = Returns (m, m, VNum 1))
  /\ fst (sentences_sharing_a_word
            (Build_Host StandardAssert jc jcall jp ue) empty_store)
     = Returns (VNum 0).
Proof.
  split; [exists (VRef 0%nat)|]; vm_compute; reflexivity.
Qed.

(** ** Equality across classes *)

(** C7.  On every host, an empty CoreferenceGroup equals an empty Sentence,
    a Word equals an Entity over the same morphemes with the same surface,
    and a RoleEdge and a plain DAGEdge each equal a DepEdge with the same
    label, source and destination: [equals] answers true between different
    subtypes. *)
Theorem equals_across_subtypes (host : Host) :
  fst (compare_across_classes host empty_store)
  = Returns [true; true; true; true].
Proof.
  destruct host as [[] jc jcall jp ue]; vm_compute; reflexivity.
Qed.

(** ** Reading members *)

Lemma get_member_ref (host : Host) (st : state) (l : loc) (o : object)
  (p : string) :
  heap st !! l = Some o ->
  default p (getter_field (o_class o) p) <> "length" ->
  get_member host (VRef l) p st
  = (Returns (field o (default p (getter_field (o_class o) p))), st).
Proof.
  intros Hl Hp. unfold get_member.
  rewrite bind_unfold, (deref_ref l o) by done.
  by apply get_prop_ref.
Qed.

Lemma get_member_null (host : Host) (st : state) (p : string) :
  get_member host VNull p st = (Throws TypeError, st).
Proof. reflexivity. Qed.

Lemma get_member_java (host : Host) (st : state) (h : nat) (p : string) :
  get_member host (VJava h) p st = (Returns (jvm_prop host h p), st).
Proof. reflexivity. Qed.

(** Reading a member returns a value or throws a TypeError, and leaves the
    store as it is. *)
Lemma get_member_total (host : Host) (v : val) (p : string) (st : state) :
  (exists x, get_member host v p st = (Returns x, st))
  \/ get_member host v p st = (Throws TypeError, st).
Proof.
  unfold get_member, get_prop. rewrite bind_unfold.
  destruct v; simpl; eauto.
  - destruct (bool_decide (p = "length")); eauto.
  - destruct (heap st !! l) as [o|] eqn:Hl; [|by right].
    rewrite bind_unfold. unfold deref. rewrite Hl.
    destruct (_ && _); eauto.
Qed.

(** ** Coreference groups *)

(** An Entity never equals a foreign proxy, whatever properties the proxy
    answers: the proxy is not an array. *)
Lemma Entity_equals_foreign (host : Host) (st : state) (l : loc)
  (o : object) (h : nat) :
  heap st !! l = Some o ->
  o_class o = CEntity ->
  Entity_equals host (VRef l) (VJava h) st = (Returns false, st).
Proof.
  intros Hl Hc. unfold Entity_equals, and_then, same_member.
  rewrite !bind_unfold, (get_member_ref host st l o) by (rewrite ?Hc; done).
  rewrite bind_unfold, get_member_java. simpl.
  destruct (strict_eq _ _); [|done].
  rewrite !bind_unfold, (get_member_ref host st l o) by (rewrite ?Hc; done).
  rewrite bind_unfold, get_member_java. simpl.
  destruct (strict_eq _ _); [|done].
  unfold ImmutableArray_equals, isEqual. simpl. by rewrite Hl, Hc.
Qed.

(** The lookup of [_getCorefGroup] finds nothing among Entities. *)
Lemma find_first_foreign (host : Host) (st : state) (h : nat)
  (items : list val) :
  Forall (fun v => exists l o,
            v = VRef l /\ heap st !! l = Some o /\ o_class o = CEntity)
         items ->
  find_first (fun enty => equals host enty (VJava h)) items st
  = (Returns VUndef, st).
Proof.
  induction 1 as [|v items (l & o & -> & Hl & Hc) _ IH]; simpl; [done|].
  rewrite bind_unfold. unfold equals at 1.
  rewrite bind_unfold, (deref_ref l o) by done. rewrite Hc.
  by rewrite (Entity_equals_foreign host st l o).
Qed.

(** C8.  On either host, the reconstruction of a foreign sentence of one
    word, one entity and one coreference group holding that entity throws a
    TypeError, while the same sentence without the group is
    reconstructed. *)
Theorem coreference_lookup_finds_nothing (rt : runtime) :
  fst (Sentence_fromJava (node rt) (foreign_sentence [foreign_group])
                         empty_store)
  = Throws TypeError
  /\ exists s,
       fst (Sentence_fromJava (node rt) (foreign_sentence []) empty_store)
       = Returns s.
Proof.
  destruct rt; (split; [vm_compute; reflexivity|]);
    eexists; vm_compute; reflexivity.
Qed.

(** ** Entity equality *)



(** ** Edge equality *)

(** C10 fails as stated: a root DepEdge compared with a DepEdge of the same
    type and another label does not throw, [equals] returns false. *)
Lemma root_dep_edge_compares_false :
  fst (compare_root_edge (node StandardAssert) empty_store) = Returns false.
Proof. vm_compute. reflexivity. Qed.

(** C10.  [DAGEdge.equals] reaches [this.src] only after its first two
    conjuncts hold.  For an edge whose source is absent, [equals(other)]
    returns false when [typeof other] is not ["object"] or the label of
    [other] differs from the edge's, and throws a TypeError when [other] is
    [null] or an object with the same label. *)
Theorem root_edge_equals (host : Host) (st : state) (l : loc) (o : object)
  (other : val) :
  heap st !! l = Some o ->
  is_edge_class (o_class o) = true ->
  isDefined (field o "_src") = false ->
  (typeof other <> "object" ->
     DAGEdge_equals host (VRef l) other st = (Returns false, st))
  /\ (other = VNull ->
        DAGEdge_equals host (VRef l) other st = (Throws TypeError, st))
  /\ (forall lbl,
        typeof other = "object" ->
        get_member host other "_label" st = (Returns lbl, st) ->
        lbl <> field o "_label" ->
        DAGEdge_equals host (VRef l) other st = (Returns false, st))
  /\ (forall lbl,
        typeof other = "object" ->
        get_member host other "_label" st = (Returns lbl, st) ->
        lbl = field o "_label" ->
        DAGEdge_equals host (VRef l) other st = (Throws TypeError, st)).
Proof.
  intros Hl Hc Hsrc.
  assert (Hlabel : get_member host (VRef l) "_label" st
                   = (Returns (field o "_label"), st)).
  { rewrite (get_member_ref host st l o) by (destruct (o_class o); done).
    by destruct (o_class o). }
  assert (Hthis : get_member host (VRef l) "src" st
                  = (Returns (field o "_src"), st)).
  { rewrite (get_member_ref host st l o) by (destruct (o_class o); done).
    by destruct (o_class o). }
  assert (Hobj : typeof (VRef l) = "object") by reflexivity.
  unfold DAGEdge_equals, and_then, same_member.
  repeat split.
  - intros Hty. mstep. by rewrite bool_decide_eq_false_2 by congruence.
  - intros ->. mstep. rewrite bool_decide_eq_true_2 by done.
    mstep. mstep_with Hlabel. by mstep_with get_member_null.
  - intros lbl Hty Hother Hne. mstep.
    rewrite bool_decide_eq_true_2 by congruence.
    mstep. mstep_with Hlabel. mstep_with Hother.
    unfold strict_eq. by rewrite bool_decide_eq_false_2 by congruence.
  - intros lbl Hty Hother ->. mstep.
    rewrite bool_decide_eq_true_2 by congruence.
    mstep. mstep_with Hlabel. mstep_with Hother.
    unfold strict_eq. rewrite bool_decide_eq_true_2 by done.
    mstep. mstep_with Hthis. rewrite bind_unfold.
    destruct (get_member_total host other "src" st) as [[x ->]| ->]; [|done].
    unfold call_equals. rewrite bind_unfold.
    by destruct (field o "_src").
Qed.

Lemma root_edge_equals_witness :
  let host := node StandardAssert in
  let st := snd (root_edge_and_other host empty_store) in
  fst (root_edge_and_other host empty_store)
  = Returns (VRef 16%nat, VRef 17%nat)
  /\ DAGEdge_equals host (VRef 16%nat) (VRef 17%nat) st = (Returns false, st)
  /\ DAGEdge_equals host (VRef 16%nat) (VRef 16%nat) st
     = (Throws TypeError, st).
Proof.
  intros host st.
  destruct (root_edge_equals host st 16%nat (object_at st 16%nat)
                             (VRef 17%nat))
    as (_ & _ & Hne & _); [vm_compute; reflexivity ..|].
  destruct (root_edge_equals host st 16%nat (object_at st 16%nat)
                             (VRef 16%nat))
    as (_ & _ & _ & Heq); [vm_compute; reflexivity ..|].
  split; [vm_compute; reflexivity|]. split.
  - apply (Hne (VStr "SBJ")); [reflexivity|vm_compute; reflexivity|].
    vm_compute. discriminate.
  - apply (Heq (VStr "ROOT")); [reflexivity|vm_compute; reflexivity|].
    vm_compute. reflexivity.
Defined.

(** ** Objects under construction

    While a constructor runs, the store is the heap [h0] it started from
    followed by the objects allocated since; the object under construction
    is the first of these. *)

Section Construction.

Variable host : Host.

Lemma lookup_new {A} (h0 new : list A) (k : nat) :
  (h0 ++ new) !! (length h0 + k)%nat = new !! k.
Proof. by rewrite lookup_app_r, Nat.add_comm, Nat.add_sub by lia. Qed.

Lemma insert_new {A} (h0 new : list A) (k : nat) (x : A) :
  <[(length h0 + k)%nat := x]> (h0 ++ new) = h0 ++ <[k := x]> new.
Proof. by rewrite insert_app_r. Qed.

Lemma alloc_first o h0 c :
  alloc o (State h0 c) = (Returns (length h0 + 0)%nat, State (h0 ++ [o]) c).
Proof. unfold alloc. simpl. by rewrite Nat.add_0_r. Qed.

Lemma alloc_new o h0 new c :
  alloc o (State (h0 ++ new) c)
  = (Returns (length h0 + length new)%nat, State (h0 ++ (new ++ [o])) c).
Proof. unfold alloc. simpl. by rewrite length_app, app_assoc. Qed.

Lemma deref_new h0 new c k o :
  new !! k = Some o ->
  deref (VRef (length h0 + k)%nat) (State (h0 ++ new) c)
  = (Returns (Some ((length h0 + k)%nat, o)), State (h0 ++ new) c).
Proof. intros H. apply deref_ref. simpl. by rewrite lookup_new. Qed.

Lemma store_slot_new h0 new c k o p s :
  store_slot (length h0 + k)%nat o p s (State (h0 ++ new) c)
  = (Returns tt,
     State (h0 ++ <[k := Object (o_class o) (<[p := s]> (o_props o))
                                (o_items o) (o_frozen o)]> new) c).
Proof. unfold store_slot. simpl. by rewrite insert_new. Qed.

Lemma set_prop_this h0 cls props items rest c p v :
  plain_slot (props !! p) = true ->
  set_prop host (VRef (length h0 + 0)%nat) p v
    (State (h0 ++ Object cls props items false :: rest) c)
  = (Returns tt,
     State (h0 ++ Object cls (<[p := Data v]> props) items false :: rest) c).
Proof.
  intros Hp. unfold set_prop.
  rewrite bind_unfold,
    (deref_new h0 _ c 0 (Object cls props items false)) by done.
  cbv beta iota.
  change (o_props (Object cls props items false)) with props.
  destruct (props !! p) as [[]|]; try done; apply store_slot_new.
Qed.

Lemma get_prop_this h0 cls props items rest c p :
  p <> "length" ->
  get_prop host (VRef (length h0 + 0)%nat) p
    (State (h0 ++ Object cls props items false :: rest) c)
  = (Returns (from_option slot_value VUndef (props !! p)),
     State (h0 ++ Object cls props items false :: rest) c).
Proof.
  intros Hp.
  rewrite (get_prop_ref host _ _ (Object cls props items false)); try done.
  simpl. by rewrite lookup_new.
Qed.

Lemma define_write_once_this h0 cls props items rest c p :
  define_write_once (VRef (length h0 + 0)%nat) p
    (State (h0 ++ Object cls props items false :: rest) c)
  = (Returns tt,
     State (h0 ++ Object cls (<[p := WriteOnce VUndef]> props) items false
                  :: rest) c).
Proof.
  unfold define_write_once.
  rewrite bind_unfold,
    (deref_new h0 _ c 0 (Object cls props items false)) by done.
  cbv beta iota. apply store_slot_new.
Qed.

Lemma define_replaceable_this h0 cls props items rest c p :
  define_replaceable (VRef (length h0 + 0)%nat) p
    (State (h0 ++ Object cls props items false :: rest) c)
  = (Returns tt,
     State (h0 ++ Object cls
                    (<[p := ReplaceableIfEmpty
                              (VRef (length h0 + S (length rest))%nat)]>
                       props) items false
                  :: rest ++ [Object CArray ∅ [] true]) c).
Proof.
  unfold define_replaceable.
  rewrite bind_unfold, alloc_new. cbv beta iota.
  change ((Object cls props items false :: rest) ++ [Object CArray ∅ [] true])
    with (Object cls props items false :: rest ++ [Object CArray ∅ [] true]).
  rewrite bind_unfold,
    (deref_new h0 _ c 0 (Object cls props items false)) by done.
  cbv beta iota. apply store_slot_new.
Qed.

Lemma init_array_field_this h0 cls props items rest c name :
  plain_slot (props !! name) = true ->
  init_array_field host (VRef (length h0 + 0)%nat) name
    (State (h0 ++ Object cls props items false :: rest) c)
  = (Returns tt,
     State (h0 ++ Object cls
                    (<[name := Data (VRef (length h0 + S (length rest))%nat)]>
                       props) items false
                  :: rest ++ [Object CArray ∅ [] false]) c).
Proof.
  intros Hp. unfold init_array_field, new_object.
  rewrite bind_unfold, alloc_new. cbv beta iota.
  change ((Object cls props items false :: rest) ++ [Object CArray ∅ [] false])
    with (Object cls props items false :: rest ++ [Object CArray ∅ [] false]).
  by rewrite set_prop_this.
Qed.

Lemma set_reference_this h0 cls props items rest c v :
  props !! "_reference" = Some (Data VUndef) ->
  set_reference host (VRef (length h0 + 0)%nat) v
    (State (h0 ++ Object cls props items false :: rest) c)
  = (Returns tt,
     State (h0 ++ Object cls (<["_reference" := Data v]> props) items false
                  :: rest) c).
Proof.
  intros Hp. unfold set_reference.
  rewrite bind_unfold, get_prop_this by done. rewrite Hp. cbv beta iota.
  simpl isDefined. cbv iota. apply set_prop_this. by rewrite Hp.
Qed.

Lemma spread_this h0 cls props items rest c :
  is_array_class cls = true ->
  spread (VRef (length h0 + 0)%nat)
    (State (h0 ++ Object cls props items false :: rest) c)
  = (Returns items, State (h0 ++ Object cls props items false :: rest) c).
Proof.
  intros Hc. unfold spread.
  rewrite bind_unfold, (deref_new h0 _ c 0 (Object cls props items false))
    by done.
  cbv beta iota.
  change (o_class (Object cls props items false)) with cls.
  change (o_items (Object cls props items false)) with items.
  by rewrite Hc.
Qed.

Lemma Array_elements_refs (ls : list loc) st :
  Array_elements (map VRef ls) st = (Returns (map VRef ls), st).
Proof. by destruct ls as [|? [|? ?]]. Qed.

Lemma ImmutableArray_new_refs cls a oa ls h0 c :
  h0 !! a = Some oa ->
  is_array_class (o_class oa) = true ->
  o_items oa = map VRef ls ->
  ImmutableArray_new host cls (VRef a) (State h0 c)
  = (Returns (VRef (length h0 + 0)%nat),
     State (h0 ++ [Object cls {["_reference" := Data VUndef]} (map VRef ls)
                          false]) c).
Proof.
  intros Ha Hc Hi. unfold ImmutableArray_new, spread.
  rewrite !bind_unfold, (deref_ref a oa) by done. cbv beta iota.
  rewrite Hc, Hi, mret_unfold. cbv beta iota.
  rewrite bind_unfold, Array_elements_refs. cbv beta iota.
  unfold new_object. rewrite bind_unfold, alloc_first. cbv beta iota.
  unfold init_field.
  rewrite bind_unfold, (set_prop_this h0 cls ∅ _ [] c) by done.
  reflexivity.
Qed.

(** An assertion that holds, or that a standard host only reports. *)
Lemma console_assert_returns b msg h c :
  (assert_mode host = LegacyAssert -> b = true) ->
  exists c', console_assert host b msg (State h c) = (Returns tt, State h c').
Proof.
  intros Hb. unfold console_assert. destruct b; [by eexists|].
  destruct (assert_mode host); [by specialize (Hb eq_refl)|by eexists].
Qed.

Lemma set_write_once_returns st l o p value newValue :
  heap st !! l = Some o ->
  o_props o !! p = Some (WriteOnce value) ->
  writable host value ->
  exists c',
    set_prop host (VRef l) p newValue st
    = (Returns tt,
       State (<[l := Object (o_class o)
                       (<[p := WriteOnce newValue]> (o_props o))
                       (o_items o) (o_frozen o)]> (heap st)) c').
Proof.
  intros Hl Hp Hw. rewrite (set_prop_write_once host st l o p value) by done.
  cbv zeta. destruct (isDefined value) eqn:Hdef; [|by eexists].
  destruct (assert_mode host) eqn:Hrt; [|by eexists].
  specialize (Hw Hrt). congruence.
Qed.

End Construction.

Ltac side := solve [vm_compute; reflexivity | done].

(** One step of a constructor on the object under construction. *)
Ltac construct_step :=
  first
    [ rewrite bind_unfold
    | rewrite set_prop_this by side
    | rewrite init_array_field_this by side
    | rewrite define_write_once_this
    | rewrite define_replaceable_this
    | rewrite set_reference_this by side
    | rewrite spread_this by side
    | rewrite mret_unfold ];
  cbv beta iota.

(** ** Position indices of distinct elements *)

Section Indices.

Variable host : Host.

Lemma morpheme_at_extend h0 new c c' l :
  morpheme_at host (State h0 c) l -> morpheme_at host (State (h0 ++ new) c') l.
Proof.
  intros (o & v1 & v2 & Ho & ? & ? & ? & ?). exists o, v1, v2.
  repeat split; try done. simpl in *. by apply lookup_app_l_Some.
Qed.

Lemma word_at_loc_extend h0 new c c' l :
  word_at_loc host (State h0 c) l -> word_at_loc host (State (h0 ++ new) c') l.
Proof.
  intros (o & v & Ho & ? & ?). exists o, v.
  repeat split; try done. simpl in *. by apply lookup_app_l_Some.
Qed.

(** The loop of the Word constructor over distinct morphemes. *)
Lemma Word_loop this ms : forall i st,
  NoDup ms ->
  Forall (morpheme_at host st) ms ->
  exists st',
    for_entries i (map VRef ms)
      (fun i morph => _ ← set_prop host morph "word" this;
                      set_prop host morph "id" (VNum i)) st
    = (Returns tt, st')
    /\ (forall l, l ∉ ms -> heap st' !! l = heap st !! l)
    /\ (forall (k : nat) l, ms !! k = Some l ->
          exists o', heap st' !! l = Some o'
            /\ field o' "word" = this
            /\ field o' "id" = VNum (i + Z.of_nat k)).
Proof.
  induction ms as [|l ms IH]; intros i st Hnd Hall.
  - exists st. by repeat split.
  - apply NoDup_cons in Hnd as [Hl Hnd].
    inversion Hall as [|? ? (o & v1 & v2 & Ho & Hw & Hi & W1 & W2) Hall'];
      subst.
    destruct (set_write_once_returns host st l o "word" v1 this Ho Hw W1)
      as [c1 E1].
    set (o1 := Object (o_class o) (<["word" := WriteOnce this]> (o_props o))
                      (o_items o) (o_frozen o)) in *.
    set (st1 := State (<[l := o1]> (heap st)) c1) in *.
    assert (Ho1 : heap st1 !! l = Some o1).
    { simpl. apply list_lookup_insert_eq. by eapply lookup_lt_Some. }
    assert (Hi1 : o_props o1 !! "id" = Some (WriteOnce v2)).
    { simpl. by rewrite lookup_insert_ne. }
    destruct (set_write_once_returns host st1 l o1 "id" v2 (VNum i)
                                     Ho1 Hi1 W2) as [c2 E2].
    set (o2 := Object (o_class o1)
                      (<["id" := WriteOnce (VNum i)]> (o_props o1))
                      (o_items o1) (o_frozen o1)) in *.
    set (st2 := State (<[l := o2]> (heap st1)) c2) in *.
    assert (Hne : forall l', l' ∈ ms -> l' <> l) by (intros l' ? ->; done).
    destruct (IH (i + 1) st2 Hnd) as (st' & Eloop & Hother & Hset).
    { apply Forall_forall. intros l' Hl'.
      rewrite Forall_forall in Hall'.
      destruct (Hall' l' Hl') as (o' & w1 & w2 & Ho' & ? & ? & ? & ?).
      exists o', w1, w2. repeat split; try done.
      subst st2 st1. simpl.
      by rewrite !list_lookup_insert_ne by (intros ->; by apply (Hne l')). }
    exists st'. split; [|split].
    + simpl. rewrite bind_unfold. rewrite bind_unfold, E1. cbv beta iota.
      rewrite E2. cbv beta iota. exact Eloop.
    + intros l' Hl'. rewrite Hother by set_solver.
      subst st2 st1. simpl.
      by rewrite !list_lookup_insert_ne by set_solver.
    + intros [|k] l' Hk; simpl in Hk.
      * injection Hk as <-. exists o2. split.
        -- rewrite Hother by done. subst st2. simpl.
           apply list_lookup_insert_eq. rewrite length_insert.
           by eapply lookup_lt_Some.
        -- split.
           ++ unfold field, o2, o1. simpl.
              rewrite lookup_insert_ne by done. by rewrite lookup_insert_eq.
           ++ unfold field, o2. simpl. rewrite lookup_insert_eq. simpl.
              f_equal. lia.
      * destruct (Hset k l' Hk) as (o' & ? & ? & Hid).
        exists o'. repeat split; try done. rewrite Hid. f_equal. lia.
Qed.

(** The loop of the Sentence constructor over distinct words. *)
Lemma Sentence_loop ws : forall i st,
  NoDup ws ->
  Forall (word_at_loc host st) ws ->
  exists st',
    for_entries i (map VRef ws)
      (fun i word => set_prop host word "id" (VNum i)) st
    = (Returns tt, st')
    /\ (forall l, l ∉ ws -> heap st' !! l = heap st !! l)
    /\ (forall (k : nat) l, ws !! k = Some l ->
          exists o', heap st' !! l = Some o'
            /\ field o' "id" = VNum (i + Z.of_nat k)).
Proof.
  induction ws as [|l ws IH]; intros i st Hnd Hall.
  - exists st. by repeat split.
  - apply NoDup_cons in Hnd as [Hl Hnd].
    inversion Hall as [|? ? (o & v & Ho & Hi & W) Hall']; subst.
    destruct (set_write_once_returns host st l o "id" v (VNum i) Ho Hi W)
      as [c1 E1].
    set (o1 := Object (o_class o) (<["id" := WriteOnce (VNum i)]> (o_props o))
                      (o_items o) (o_frozen o)) in *.
    set (st1 := State (<[l := o1]> (heap st)) c1) in *.
    assert (Hne : forall l', l' ∈ ws -> l' <> l) by (intros l' ? ->; done).
    destruct (IH (i + 1) st1 Hnd) as (st' & Eloop & Hother & Hset).
    { apply Forall_forall. intros l' Hl'.
      rewrite Forall_forall in Hall'.
      destruct (Hall' l' Hl') as (o' & w & Ho' & ? & ?).
      exists o', w. repeat split; try done.
      subst st1. simpl.
      by rewrite !list_lookup_insert_ne by (intros ->; by apply (Hne l')). }
    exists st'. split; [|split].
    + simpl. rewrite bind_unfold, E1. cbv beta iota. exact Eloop.
    + intros l' Hl'. rewrite Hother by set_solver.
      subst st1. simpl.
      by rewrite !list_lookup_insert_ne by set_solver.
    + intros [|k] l' Hk; simpl in Hk.
      * injection Hk as <-. exists o1. split.
        -- rewrite Hother by done. subst st1. simpl.
           apply list_lookup_insert_eq. by eapply lookup_lt_Some.
        -- unfold field, o1. simpl. rewrite lookup_insert_eq. simpl.
           f_equal. lia.
      * destruct (Hset k l' Hk) as (o' & ? & Hid).
        exists o'. repeat split; try done. rewrite Hid. f_equal. lia.
Qed.



End Indices.



(** ** Constructors and mutators on any store *)

Lemma console_assert_reports (host : Host) (msg : string) (h : list object)
  (c : list string) :
  assert_mode host = StandardAssert ->
  console_assert host false msg (State h c) = (Returns tt, State h (c ++ [msg])).
Proof. intros Hrt. unfold console_assert. by rewrite Hrt. Qed.

(** On a standard host a DAGEdge without destination is constructed from
    every store, source and label. *)
Lemma DAGEdge_new_without_dest (host : Host) (cls : class) (src label : val)
  (h0 : list object) (c : list string) :
  assert_mode host = StandardAssert ->
  exists o,
    DAGEdge_new host cls src VUndef label (State h0 c)
    = (Returns (VRef (length h0)), State (h0 ++ [o]) (c ++ ["dest"]))
    /\ o_class o = cls /\ field o "_dest" = VUndef.
Proof.
  intros Hrt. replace (length h0) with (length h0 + 0)%nat by lia.
  unfold DAGEdge_new, JavaWrappable_new, new_object, init_field.
  rewrite !bind_unfold, alloc_first. cbv beta iota.
  repeat construct_step.
  change (isDefined VUndef) with false.
  rewrite console_assert_reports by done. cbv beta iota.
  repeat construct_step.
  eexists. split; [reflexivity|]. split; [done|]. by vm_compute.
Qed.

(** [reverse] on any ImmutableArray that is not frozen returns the array
    and stores its elements in reverse order. *)
Lemma reverse_reverses (st : state) (l : loc) (o : object) :
  heap st !! l = Some o ->
  o_frozen o = false ->
  ImmutableArray_call (VRef l) Reverse st
  = (Returns (VRef l),
     State (<[l := Object (o_class o) (o_props o) (reverse (o_items o))
                          (o_frozen o)]> (heap st)) (console st)).
Proof.
  intros Hl Hf. unfold ImmutableArray_call, put_items.
  rewrite bind_unfold, (deref_ref l o) by done. rewrite Hf. reflexivity.
Qed.

(** [ImmutableArray.equals] between two arrays of the store never looks at
    their classes. *)
Lemma ImmutableArray_equals_arrays (host : Host) (st : state) (l1 l2 : loc)
  (o1 o2 : object) :
  heap st !! l1 = Some o1 ->
  heap st !! l2 = Some o2 ->
  is_array_class (o_class o1) = true ->
  is_array_class (o_class o2) = true ->
  ImmutableArray_equals host (VRef l1) (VRef l2) st
  = (Returns (strict_eq (VRef l1) (VRef l2)
              || all_pairs (eq_elements host st [(l1, l2)])
                           (o_items o1) (o_items o2)), st).
Proof.
  intros H1 H2 C1 C2. unfold ImmutableArray_equals, isEqual. simpl.
  rewrite H1, H2, C1, C2. by destruct (strict_eq _ _).
Qed.


(** ** Renderings *)

Lemma append_cons (x : Ascii.ascii) (a b : string) :
  String x a +:+ b = String x (a +:+ b).
Proof. reflexivity. Qed.

Lemma append_assoc (a b c : string) : (a +:+ b) +:+ c = a +:+ (b +:+ c).
Proof. induction a as [|x a IH]; [done|]. by rewrite !append_cons, IH. Qed.

Lemma append_empty_r (a : string) : a +:+ "" = a.
Proof. induction a as [|x a IH]; [done|]. by rewrite append_cons, IH. Qed.

Lemma join_cons (separator x : string) (xs : list string) :
  xs <> [] ->
  join separator (x :: xs) = x +:+ separator +:+ join separator xs.
Proof. by destruct xs. Qed.

Lemma join_app (separator : string) (xs ys : list string) :
  xs <> [] -> ys <> [] ->
  join separator (xs ++ ys)
  = join separator xs +:+ separator +:+ join separator ys.
Proof.
  intros Hx Hy. induction xs as [|x xs IH]; [done|].
  destruct xs as [|x' xs].
  - by rewrite <- app_comm_cons, join_cons.
  - rewrite <- app_comm_cons, join_cons by done.
    rewrite IH by done. rewrite (join_cons _ x) by done.
    by rewrite !append_assoc.
Qed.

(** X3.  [Sentence.surfaceString], [Sentence.singleLineString] and
    [Sentence.toString] put the separator between the renderings of the words
    and nowhere else: the rendering of a sentence is that of a first part, the
    separator, and that of the rest. *)
Theorem renderings_join (s1 s2 : list word) (delimiter : string) :
  s1 <> [] -> s2 <> [] ->
  surfaceString (s1 ++ s2) delimiter
  = surfaceString s1 delimiter +:+ delimiter +:+ surfaceString s2 delimiter
  /\ Sentence_singleLineString (s1 ++ s2)
     = Sentence_singleLineString s1 +:+ " " +:+ Sentence_singleLineString s2
  /\ Sentence_toString (s1 ++ s2)
     = Sentence_toString s1 +:+ " " +:+ Sentence_toString s2.
Proof.
  intros H1 H2. unfold Sentence_toString, surfaceString,
    Sentence_singleLineString.
  rewrite !map_app.
  repeat split; apply join_app; by destruct s1, s2.
Qed.

Lemma renderings_join_witness :
  surfaceString ([word_at 0] ++ [word_at 1]) "-" = "w-w"
  /\ Sentence_singleLineString ([word_at 0] ++ [word_at 1]) = "w/NNG w/NNG".
Proof.
  destruct (renderings_join [word_at 0] [word_at 1] "-") as (E1 & E2 & _);
    [discriminate|discriminate|].
  split; [by rewrite E1|by rewrite E2].
Defined.

(** *** getTreeString *)

Lemma getTreeString_unfold label terminal children depth buffer :
  getTreeString (Node label terminal children) depth buffer
  = fold_left
      (fun buffer child => getTreeString child (depth + 1) (buffer +:+ newline))
      children
      ((buffer +:+ indent depth)
       +:+ Tree_toString (Node label terminal children)).
Proof. reflexivity. Qed.

Lemma fold_buffer (cs : list tree) (depth : nat) :
  Forall (fun c => forall d b,
            getTreeString c d b = b +:+ getTreeString c d "") cs ->
  forall buffer line,
    fold_left
      (fun buffer child => getTreeString child depth (buffer +:+ newline))
      cs (buffer +:+ line)
    = buffer
      +:+ fold_left
            (fun buffer child =>
               getTreeString child depth (buffer +:+ newline))
            cs line.
Proof.
  induction 1 as [|c cs Hc _ IH]; intros buffer line; [done|].
  cbn [fold_left]. rewrite append_assoc, Hc, append_assoc, IH.
  by rewrite <- Hc.
Qed.

(** The buffer is only appended to. *)
Lemma getTreeString_buffer (t : tree) : forall depth buffer,
  getTreeString t depth buffer = buffer +:+ getTreeString t depth "".
Proof.
  induction t as [label terminal children IH] using tree_forall_ind.
  intros depth buffer. rewrite !getTreeString_unfold.
  change ("" +:+ indent depth) with (indent depth).
  rewrite append_assoc. by apply fold_buffer.
Qed.

Lemma fold_lines (cs : list tree) (depth : nat) :
  Forall (fun c => forall d,
            getTreeString c d "" = join newline (tree_lines d c)) cs ->
  forall (lines : list string),
    lines <> [] ->
    fold_left
      (fun buffer child => getTreeString child depth (buffer +:+ newline))
      cs (join newline lines)
    = join newline (lines ++ flat_map (tree_lines depth) cs).
Proof.
  induction 1 as [|c cs Hc _ IH]; intros lines Hne.
  - simpl. by rewrite app_nil_r.
  - cbn [fold_left flat_map]. rewrite getTreeString_buffer, Hc.
    rewrite append_assoc, <- join_app; [|done|by destruct c].
    rewrite IH by (by destruct lines). by rewrite <- app_assoc.
Qed.

Lemma tree_lines_length (t : tree) : forall depth,
  length (tree_lines depth t) = tree_size t.
Proof.
  induction t as [label terminal children IH] using tree_forall_ind.
  intros depth. simpl. f_equal.
  induction IH as [|c cs Hc _ IHcs]; [done|].
  simpl. by rewrite length_app, Hc, IHcs.
Qed.

(** X4.  [getTreeString] appends to the buffer the nodes of the tree in
    pre-order, one line per node, each line being one indent marker per level
    followed by the node's own rendering; a negative depth is a RangeError. *)
Theorem getTreeString_lines (t : tree) (depth : Z) (buffer : string) :
  Tree_getTreeString t depth buffer
  = (if (depth <? 0)%Z then Throws RangeError
     else Returns (buffer +:+ join newline (tree_lines (Z.to_nat depth) t)))
  /\ length (tree_lines (Z.to_nat depth) t) = tree_size t.
Proof.
  split; [|apply tree_lines_length].
  unfold Tree_getTreeString. destruct (depth <? 0)%Z; [done|]. f_equal.
  rewrite getTreeString_buffer. f_equal.
  generalize (Z.to_nat depth). clear depth buffer.
  induction t as [label terminal children IH] using tree_forall_ind.
  intros depth. rewrite getTreeString_unfold.
  change ("" +:+ indent depth) with (indent depth).
  change (tree_lines depth (Node label terminal children))
    with ([indent depth +:+ Tree_toString (Node label terminal children)]
          ++ flat_map (tree_lines (depth + 1)) children).
  by rewrite <- fold_lines.
Qed.

(** ** Partial tags *)

Lemma prefix_append (p s : string) :
  String.prefix p s = true <-> exists rest, s = p +:+ rest.
Proof.
  revert s. induction p as [|a p IH]; intros s.
  - split; [by exists s|by intros _; destruct s].
  - destruct s as [|b s].
    + split; [done|]. by intros [rest H].
    + cbn [String.prefix]. destruct (Ascii.ascii_dec a b) as [->|Hab].
      * rewrite IH. split; intros [rest H]; exists rest.
        -- by rewrite append_cons, H.
        -- rewrite append_cons in H. by injection H.
      * split; [done|]. intros [rest H]. rewrite append_cons in H.
        injection H as Hb _. by subst.
Qed.

(** X5.  [Morpheme.hasTag] and [Morpheme.hasTagOneOf]: a morpheme has a
    partial tag when its tag is the partial tag followed by something,
    possibly nothing; it has one of several when it has some of them. The
    empty partial tag is had by every morpheme, and a tag extending a partial
    tag that is not had is not had either. *)
Theorem hasTagOneOf_prefixes (m : morpheme) (tags : list string) :
  (hasTagOneOf m tags = true
   <-> exists t rest, In t tags /\ m_tag m = t +:+ rest)
  /\ (forall t, hasTag m t = hasTagOneOf m [t])
  /\ hasTag m "" = true
  /\ (forall t rest, hasTag m t = false -> hasTag m (t +:+ rest) = false).
Proof.
  unfold hasTagOneOf, hasTag, tag_startsWith.
  split; [split|split; [|split]].
  - rewrite existsb_exists. intros (t & Hin & Hp).
    apply prefix_append in Hp as [rest ->]. by exists t, rest.
  - intros (t & rest & Hin & Hm). apply existsb_exists. exists t.
    split; [done|]. apply prefix_append. by exists rest.
  - intros t. simpl. by rewrite orb_false_r.
  - by destruct (m_tag m).
  - intros t rest Hf.
    destruct (String.prefix (t +:+ rest) (m_tag m)) eqn:Hp; [|done].
    apply prefix_append in Hp as [rest' Hp].
    assert (String.prefix t (m_tag m) = true) as Ht; [|congruence].
    apply prefix_append. exists (rest +:+ rest'). by rewrite <- append_assoc.
Qed.

(** ** Assignments *)

Lemma set_prop_data (host : Host) (st : state) (l : loc) (o : object)
  (p : string) (v : val) :
  heap st !! l = Some o ->
  plain_slot (o_props o !! p) = true ->
  o_frozen o = false ->
  set_prop host (VRef l) p v st
  = (Returns tt,
     State (<[l := Object (o_class o) (<[p := Data v]> (o_props o))
                          (o_items o) (o_frozen o)]> (heap st))
           (console st)).
Proof.
  intros Hl Hp Hf. unfold set_prop.
  rewrite bind_unfold, (deref_ref l o) by done. cbv beta iota.
  unfold store_slot. rewrite Hf.
  by destruct (o_props o !! p) as [[]|].
Qed.

Lemma get_prop_length (host : Host) (st : state) (a : loc) (oa : object) :
  heap st !! a = Some oa ->
  is_array_class (o_class oa) = true ->
  get_prop host (VRef a) "length" st
  = (Returns (VNum (Z.of_nat (length (o_items oa)))), st).
Proof.
  intros Ha Hc. unfold get_prop.
  rewrite bind_unfold, (deref_ref a oa) by done. cbv beta iota.
  by rewrite Hc, bool_decide_eq_true_2.
Qed.

(** X6.  The [reference] accessor pair of [JavaMixin]: once a defined value
    has been assigned, reading [reference] returns it without running
    [_initReference] and without changing the store, and a further assignment
    throws a TypeError on every host and changes nothing. *)
Theorem reference_assigned_once (host : Host) (st : state) (l : loc)
  (o : object) (value other : val) (initReference : M val) :
  heap st !! l = Some o ->
  o_props o !! "_reference" = Some (Data VUndef) ->
  o_frozen o = false ->
  isDefined value = true ->
  let st' :=
    State (<[l := Object (o_class o)
                    (<["_reference" := Data value]> (o_props o))
                    (o_items o) (o_frozen o)]> (heap st))
          (console st) in
  set_reference host (VRef l) value st = (Returns tt, st')
  /\ get_reference host (VRef l) initReference st' = (Returns value, st')
  /\ set_reference host (VRef l) other st' = (Throws TypeError, st').
Proof.
  intros Hl Hp Hf Hv st'.
  assert (l < length (heap st))%nat as Hlt by by eapply lookup_lt_Some.
  set (o' := Object (o_class o) (<["_reference" := Data value]> (o_props o))
                    (o_items o) (o_frozen o)).
  assert (heap st' !! l = Some o') as Hl'
    by (simpl; by rewrite list_lookup_insert_eq).
  assert (field o' "_reference" = value) as Hfield
    by (unfold field; simpl; by rewrite lookup_insert_eq).
  split; [|split].
  - unfold set_reference.
    rewrite bind_unfold, (get_prop_ref host st l o) by done.
    cbv beta iota. unfold field. rewrite Hp. simpl.
    apply set_prop_data; try done. by rewrite Hp.
  - unfold get_reference.
    rewrite bind_unfold, (get_prop_ref host st' l o') by done.
    cbv beta iota. rewrite Hfield, Hv. simpl negb. cbv iota.
    rewrite bind_unfold, mret_unfold. cbv beta iota.
    by rewrite (get_prop_ref host st' l o'), Hfield.
  - unfold set_reference.
    rewrite bind_unfold, (get_prop_ref host st' l o') by done.
    cbv beta iota. by rewrite Hfield, Hv.
Qed.

Lemma reference_assigned_once_witness :
  let host := node LegacyAssert in
  let this := VRef 0%nat in
  let st := State [Object CMorpheme {["_reference" := Data VUndef]} [] false]
                  [] in
  let st' := State [Object CMorpheme {["_reference" := Data (VJava 7)]} []
                           false] [] in
  (_ ← set_reference host this (VJava 7);
   get_reference host this (throw Error)) st = (Returns (VJava 7), st')
  /\ (_ ← set_reference host this (VJava 7);
      set_reference host this VNull) st = (Throws TypeError, st').
Proof.
  intros host this st st'.
  destruct (reference_assigned_once host st 0%nat
              (Object CMorpheme {["_reference" := Data VUndef]} [] false)
              (VJava 7) VNull (throw Error))
    as (H1 & H2 & H3); [vm_compute; reflexivity..|].
  split; rewrite bind_unfold; unfold this; rewrite H1; cbv beta iota;
    [rewrite H2|rewrite H3]; vm_compute; reflexivity.
Defined.



(** ** Links set by the constructors *)

Section Links.

Variable host : Host.

Lemma lookup_same {A} (h : list A) (l : nat) (x y : A) :
  h !! l = Some x -> h !! l = Some y -> x = y.
Proof. congruence. Qed.

Lemma touches_only_refl p st : touches_only p [] st st.
Proof. intros l o Hl. by exists o. Qed.

Lemma touches_only_trans p ls1 ls2 st1 st2 st3 :
  touches_only p ls1 st1 st2 -> touches_only p ls2 st2 st3 ->
  touches_only p (ls1 ++ ls2) st1 st3.
Proof.
  intros H1 H2 l o Hl.
  destruct (H1 l o Hl) as (o2 & Hl2 & C2 & I2 & F2 & P2 & N2).
  destruct (H2 l o2 Hl2) as (o3 & Hl3 & C3 & I3 & F3 & P3 & N3).
  exists o3. split; [done|]. do 3 (split; [congruence|]). split.
  - intros q Hq. by rewrite P3, P2.
  - intros Hn. rewrite N3, N2; set_solver.
Qed.

Lemma write_once_at_touched p q ls st st' l :
  p <> q ->
  touches_only q ls st st' ->
  write_once_at host st p l -> write_once_at host st' p l.
Proof.
  intros Hpq H (o & v & Hl & Hp & Hw).
  destruct (H l o Hl) as (o' & Hl' & _ & _ & _ & P & _).
  exists o', v. by rewrite P.
Qed.

Lemma write_once_at_untouched p ls st st' l :
  l ∉ ls ->
  touches_only p ls st st' ->
  write_once_at host st p l -> write_once_at host st' p l.
Proof.
  intros Hn H (o & v & Hl & Hp & Hw).
  destruct (H l o Hl) as (o' & Hl' & _ & _ & _ & _ & N).
  exists o, v. by rewrite <- (N Hn) at 1.
Qed.

(** One assignment to a one-time-write property that is open. *)
Lemma write_once_set p this l st :
  write_once_at host st p l ->
  exists st',
    set_prop host (VRef l) p this st = (Returns tt, st')
    /\ touches_only p [l] st st'
    /\ exists o', heap st' !! l = Some o' /\ field o' p = this.
Proof.
  intros (o & v & Hl & Hp & Hw).
  destruct (set_write_once_returns host st l o p v this Hl Hp Hw) as [c' E].
  assert (l < length (heap st))%nat as Hlt by by eapply lookup_lt_Some.
  eexists. split; [exact E|]. split.
  - intros l' o' Hl'. simpl. destruct (decide (l' = l)) as [->|Hne].
    + rewrite list_lookup_insert_eq by done. eexists. split; [done|].
      assert (o' = o) as -> by exact (lookup_same _ _ _ _ Hl' Hl).
      repeat split; try done.
      * intros q Hq. simpl. by rewrite lookup_insert_ne.
      * set_solver.
    + rewrite list_lookup_insert_ne by done. by exists o'.
  - simpl. rewrite list_lookup_insert_eq by done. eexists. split; [done|].
    unfold field. simpl. by rewrite lookup_insert_eq.
Qed.

(** The loop [for (const x of this) x.p = this] over distinct members. *)
Lemma write_once_loop p this ls : forall st,
  NoDup ls ->
  Forall (write_once_at host st p) ls ->
  exists st',
    for_of (map VRef ls) (fun x => set_prop host x p this) st
    = (Returns tt, st')
    /\ touches_only p ls st st'
    /\ forall l, l ∈ ls ->
         exists o', heap st' !! l = Some o' /\ field o' p = this.
Proof.
  induction ls as [|l ls IH]; intros st Hnd Hall.
  - exists st. split; [done|]. split; [apply touches_only_refl|set_solver].
  - apply NoDup_cons in Hnd as [Hl Hnd].
    apply Forall_cons in Hall as [Hhere Hall].
    destruct (write_once_set p this l st Hhere) as (st1 & E1 & T1 & o1 & Ho1 & F1).
    destruct (IH st1 Hnd) as (st' & Eloop & T & Hset).
    { apply Forall_forall. intros l' Hin. rewrite Forall_forall in Hall.
      eapply write_once_at_untouched; [|exact T1|by apply Hall].
      intros ->%list_elem_of_singleton. done. }
    exists st'. split; [|split].
    + simpl. by rewrite bind_unfold, E1.
    + by apply (touches_only_trans p [l] ls st st1 st').
    + intros l' Hl'. apply elem_of_cons in Hl' as [->|Hin]; [|by apply Hset].
      destruct (T l o1 Ho1) as (o' & Ho' & _ & _ & _ & _ & N).
      exists o'. split; [done|]. by rewrite (N Hl).
Qed.


Lemma touches_only_alloc p h0 new c c' :
  touches_only p [] (State h0 c) (State (h0 ++ new) c').
Proof.
  intros l o Hl. exists o. split; [|done]. simpl in *.
  by apply lookup_app_l_Some.
Qed.

Lemma write_once_at_extend p h0 new c c' l :
  write_once_at host (State h0 c) p l ->
  write_once_at host (State (h0 ++ new) c') p l.
Proof.
  apply (write_once_at_untouched p []); [|apply touches_only_alloc].
  by intros ?%elem_of_nil.
Qed.

Lemma write_once_at_lt p st l :
  write_once_at host st p l -> (l < length (heap st))%nat.
Proof. intros (o & v & Hl & _). by eapply lookup_lt_Some. Qed.

Lemma spread_ref (st : state) (l : loc) (o : object) :
  heap st !! l = Some o ->
  is_array_class (o_class o) = true ->
  spread (VRef l) st = (Returns (o_items o), st).
Proof.
  intros Hl Hc. unfold spread.
  rewrite bind_unfold, (deref_ref l o) by done. cbv beta iota.
  by rewrite Hc.
Qed.

(** X8.  Over pairwise distinct entities, none of them in a group yet, the
    group is constructed, its elements are the entities, and every entity has
    the group as [corefGroup]; nothing else about the entities, and no other
    object, is changed. *)
Theorem CoreferenceGroup_new_links a oa es h0 c :
  h0 !! a = Some oa ->
  is_array_class (o_class oa) = true ->
  o_items oa = map VRef es ->
  NoDup es ->
  Forall (write_once_at host (State h0 c) "corefGroup") es ->
  exists st',
    CoreferenceGroup_new host (VRef a) (State h0 c)
    = (Returns (VRef (length h0)), st')
    /\ (exists o, heap st' !! length h0 = Some o
                  /\ o_class o = CCoreferenceGroup
                  /\ o_items o = map VRef es)
    /\ (forall l, l ∈ es ->
          exists o', heap st' !! l = Some o'
            /\ field o' "corefGroup" = VRef (length h0))
    /\ touches_only "corefGroup" es (State h0 c) st'.
Proof.
  intros Ha Hc Hi Hnd Hall.
  replace (length h0) with (length h0 + 0)%nat by lia.
  unfold CoreferenceGroup_new.
  rewrite bind_unfold,
    (ImmutableArray_new_refs host CCoreferenceGroup a oa es) by done.
  cbv beta iota. repeat construct_step.
  match goal with
  | |- context [for_of _ _ ?st] =>
      destruct (write_once_loop "corefGroup" (VRef (length h0 + 0)%nat) es st
                  Hnd) as (st' & Eloop & T & Hset)
  end.
  { eapply Forall_impl; [exact Hall|]. intros l. apply write_once_at_extend. }
  exists st'. rewrite Eloop. cbv beta iota. rewrite mret_unfold.
  split; [done|]. split; [|split; [done|]].
  - edestruct (T (length h0 + 0)%nat) as (o' & Ho' & C & I & _).
    { simpl. by rewrite lookup_new. }
    by exists o'.
  - apply (touches_only_trans _ [] es _ _ _ (touches_only_alloc _ _ _ _ _) T).
Qed.


Lemma get_member_this h0 cls props items rest c p v :
  props !! default p (getter_field cls p) = Some (Data v) ->
  default p (getter_field cls p) <> "length" ->
  get_member host (VRef (length h0 + 0)%nat) p
    (State (h0 ++ Object cls props items false :: rest) c)
  = (Returns v, State (h0 ++ Object cls props items false :: rest) c).
Proof.
  intros Hp Hl.
  rewrite (get_member_ref host _ _ (Object cls props items false)).
  - unfold field. simpl. by rewrite Hp.
  - simpl. by rewrite lookup_new.
  - done.
Qed.

(** [if (x !== undefined) x.p = this] for [x] undefined or an object whose
    [p] is open. *)
Lemma write_once_optional p this x st :
  (x = VUndef \/ exists t, x = VRef t /\ write_once_at host st p t) ->
  exists st',
    (if negb (strict_eq x VUndef) then set_prop host x p this else mret tt) st
    = (Returns tt, st')
    /\ touches_only p (match x with VRef t => [t] | _ => [] end) st st'
    /\ forall t, x = VRef t ->
         exists o', heap st' !! t = Some o' /\ field o' p = this.
Proof.
  intros [->|(t & -> & Ht)].
  - exists st. split; [done|]. split; [apply touches_only_refl|done].
  - destruct (write_once_set p this t st Ht) as (st' & E & T & Ho).
    exists st'. split; [done|]. split; [done|]. by intros ? [= <-].
Qed.



(** *** Pushes *)

Lemma appends_only_refl x st : appends_only x st st.
Proof.
  intros l o Hl. exists o, 0%nat. simpl. by rewrite app_nil_r.
Qed.

Lemma appends_only_trans x st1 st2 st3 :
  appends_only x st1 st2 -> appends_only x st2 st3 -> appends_only x st1 st3.
Proof.
  intros H1 H2 l o Hl.
  destruct (H1 l o Hl) as (o2 & k2 & Hl2 & C2 & P2 & F2 & I2 & N2).
  destruct (H2 l o2 Hl2) as (o3 & k3 & Hl3 & C3 & P3 & F3 & I3 & N3).
  exists o3, (k2 + k3)%nat. split; [done|]. do 3 (split; [congruence|]).
  split.
  - by rewrite I3, I2, replicate_add, app_assoc.
  - intros Hn. rewrite N2, N3 by congruence. done.
Qed.

Lemma appends_only_alloc x h0 new c c' :
  appends_only x (State h0 c) (State (h0 ++ new) c').
Proof.
  intros l o Hl. exists o, 0%nat. simpl in *.
  split; [by apply lookup_app_l_Some|]. by rewrite app_nil_r.
Qed.

Lemma array_field_at_appended x p st st' l :
  appends_only x st st' -> array_field_at st p l -> array_field_at st' p l.
Proof.
  intros H (o & a & oa & Hl & Hf & Ha & Hc & Hfr).
  destruct (H l o Hl) as (o' & k & Hl' & _ & P & _).
  destruct (H a oa Ha) as (oa' & ka & Ha' & Ca & _ & Fa & _).
  exists o', a, oa'. unfold field in *. rewrite P.
  repeat split; try done; congruence.
Qed.

Lemma array_field_at_touched p q ls st st' l :
  p <> q ->
  touches_only q ls st st' -> array_field_at st p l -> array_field_at st' p l.
Proof.
  intros Hpq H (o & a & oa & Hl & Hf & Ha & Hc & Hfr).
  destruct (H l o Hl) as (o' & Hl' & _ & _ & _ & P & _).
  destruct (H a oa Ha) as (oa' & Ha' & Ca & _ & Fa & _).
  exists o', a, oa'. unfold field in *. rewrite (P p Hpq).
  repeat split; try done; congruence.
Qed.

Lemma last_of_field_appended p st st' l x :
  appends_only x st st' -> last_of_field st p l x -> last_of_field st' p l x.
Proof.
  intros H (o & a & oa & Hl & Hf & Ha & Hlast).
  destruct (H l o Hl) as (o' & k & Hl' & _ & P & _).
  destruct (H a oa Ha) as (oa' & ka & Ha' & _ & _ & _ & Ia & _).
  exists o', a, oa'. unfold field in *. rewrite P.
  do 3 (split; [done|]). rewrite Ia. clear -Hlast.
  induction ka as [|ka IH]; simpl; [by rewrite app_nil_r|].
  by rewrite replicate_cons_app, app_assoc, last_snoc.
Qed.

(** [this.l.p.push(x)] on a plain array that is not frozen. *)
Lemma push_link p x l st :
  p <> "length" ->
  array_field_at st p l ->
  exists st',
    (es ← get_prop host (VRef l) p; push es x) st = (Returns tt, st')
    /\ appends_only x st st'
    /\ last_of_field st' p l x.
Proof.
  intros Hp (o & a & oa & Hl & Hf & Ha & Hc & Hfr).
  assert (a < length (heap st))%nat as Hlt by by eapply lookup_lt_Some.
  set (oa' := Object (o_class oa) (o_props oa) (o_items oa ++ [x])
                     (o_frozen oa)).
  exists (State (<[a := oa']> (heap st)) (console st)).
  split; [|split].
  - rewrite bind_unfold, (get_prop_ref host st l o) by done.
    cbv beta iota. rewrite Hf. unfold push.
    rewrite bind_unfold, (deref_ref a oa) by done. cbv beta iota.
    subst oa'. rewrite Hfr. cbv iota. by rewrite bool_decide_eq_true_2.
  - intros l' o' Hl'. simpl. destruct (decide (l' = a)) as [->|Hne].
    + assert (o' = oa) as -> by exact (lookup_same _ _ _ _ Hl' Ha).
      exists oa', 1%nat. rewrite list_lookup_insert_eq by done.
      by repeat split.
    + exists o', 0%nat. rewrite list_lookup_insert_ne by done.
      rewrite app_nil_r. by repeat split.
  - destruct (decide (l = a)) as [->|Hne].
    + assert (o = oa) as -> by exact (lookup_same _ _ _ _ Hl Ha).
      exists oa', a, oa'. simpl. rewrite list_lookup_insert_eq by done.
      repeat split; try done. by rewrite last_snoc.
    + exists o, a, oa'. simpl.
      rewrite list_lookup_insert_ne, list_lookup_insert_eq by done.
      repeat split; try done. by rewrite last_snoc.
Qed.

(** The loop [for (const m of this) m.p.push(this)]. *)
Lemma push_loop p this ls : forall st,
  p <> "length" ->
  Forall (array_field_at st p) ls ->
  exists st',
    for_of (map VRef ls) (fun m => es ← get_prop host m p; push es this) st
    = (Returns tt, st')
    /\ appends_only this st st'
    /\ forall l, l ∈ ls -> last_of_field st' p l this.
Proof.
  induction ls as [|l ls IH]; intros st Hp Hall.
  - exists st. split; [done|]. split; [apply appends_only_refl|].
    by intros l ?%elem_of_nil.
  - apply Forall_cons in Hall as [Hhere Hall].
    destruct (push_link p this l st Hp Hhere) as (st1 & E1 & A1 & L1).
    destruct (IH st1 Hp) as (st' & Eloop & A & Hset).
    { eapply Forall_impl; [exact Hall|]. intros l'.
      by apply (array_field_at_appended this). }
    exists st'. split; [|split].
    + simpl. by rewrite bind_unfold, E1.
    + by apply (appends_only_trans this st st1 st').
    + intros l' [->|Hin]%elem_of_cons; [|by apply Hset].
      by apply (last_of_field_appended p st1 st').
Qed.


(** [if (isDefined(x)) x.p.push(this)] for [x] not defined or an object
    with a plain array in [p]. *)
Lemma push_optional p this x st :
  p <> "length" ->
  (isDefined x = false \/ exists g, x = VRef g /\ array_field_at st p g) ->
  exists st',
    (if isDefined x then (es ← get_prop host x p; push es this) else mret tt)
      st
    = (Returns tt, st')
    /\ appends_only this st st'
    /\ forall g, x = VRef g -> last_of_field st' p g this.
Proof.
  intros Hp [Hx|(g & -> & Hg)].
  - exists st. rewrite Hx. split; [done|].
    split; [apply appends_only_refl|]. by intros g ->.
  - destruct (push_link p this g st Hp Hg) as (st' & E & A & L).
    exists st'. split; [done|]. split; [done|]. by intros ? [= <-].
Qed.

Lemma console_assert_true msg st :
  console_assert host true msg st = (Returns tt, st).
Proof. reflexivity. Qed.

(** X10.  Over morphemes that each hold a plain array of entities, the Entity
    is constructed, its elements are the morphemes, and the array of entities
    of every morpheme ends with the Entity; the morphemes need not be
    distinct. No property of an object that existed before is changed. *)
Theorem Entity_new_links surface label fineLabel originalLabel a oa ms h0 c :
  h0 !! a = Some oa ->
  is_array_class (o_class oa) = true ->
  o_items oa = map VRef ms ->
  Forall (array_field_at (State h0 c) "entities") ms ->
  (assert_mode host = LegacyAssert ->
   isDefined surface && isDefined label && isDefined fineLabel = true) ->
  exists st',
    Entity_new host surface label fineLabel (VRef a) originalLabel (State h0 c)
    = (Returns (VRef (length h0)), st')
    /\ (exists o, heap st' !! length h0 = Some o
                  /\ o_class o = CEntity
                  /\ o_items o = map VRef ms
                  /\ field o "_surface" = surface
                  /\ field o "_label" = label
                  /\ field o "_fineLabel" = fineLabel
                  /\ field o "corefGroup" = VUndef)
    /\ (forall l, l ∈ ms ->
          last_of_field st' "entities" l (VRef (length h0)))
    /\ appends_only (VRef (length h0)) (State h0 c) st'.
Proof.
  intros Ha Hc Hi Hall Hlegacy.
  replace (length h0) with (length h0 + 0)%nat by lia.
  unfold Entity_new. rewrite bind_unfold.
  destruct (console_assert_returns host
              (isDefined surface && isDefined label && isDefined fineLabel
               && isDefined (VRef a)) "Entity" h0 c) as [c' ->].
  { intros Hrt. by rewrite (Hlegacy Hrt). }
  cbv beta iota.
  rewrite bind_unfold, (ImmutableArray_new_refs host CEntity a oa ms) by done.
  cbv beta iota. unfold init_field, writeonlyonce. cbn [for_of].
  repeat construct_step.
  match goal with
  | |- context [for_of _ _ ?st] =>
      destruct (push_loop "entities" (VRef (length h0 + 0)%nat) ms st)
        as (st' & Eloop & A & Hset); [done| |]
  end.
  { eapply Forall_impl; [exact Hall|]. intros l.
    apply (array_field_at_appended (VRef (length h0 + 0)%nat)).
    apply appends_only_alloc. }
  exists st'. rewrite Eloop. cbv beta iota. rewrite mret_unfold.
  split; [done|]. split; [|split; [done|]].
  - edestruct (A (length h0 + 0)%nat) as (o' & k & Ho' & C & P & _ & I & N).
    { simpl. by rewrite lookup_new. }
    exists o'. split; [done|]. simpl in C, P, I, N.
    rewrite N in I by (by rewrite ?C). simpl in I. rewrite app_nil_r in I.
    do 2 (split; [done|]). unfold field. rewrite P. by vm_compute.
  - eapply appends_only_trans; [apply appends_only_alloc|exact A].
Qed.



(** X12.  Over a predicate and an argument that hold plain arrays of roles,
    the RoleEdge is constructed, the array of predicate roles of the argument
    ends with it, and so does the array of argument roles of the predicate. *)
Theorem RoleEdge_new_links label modifiers originalLabel p a h0 c :
  array_field_at (State h0 c) "argumentRoles" p ->
  array_field_at (State h0 c) "predicateRoles" a ->
  (assert_mode host = LegacyAssert -> isDefined label = true) ->
  exists st',
    RoleEdge_new host (VRef p) (VRef a) label modifiers originalLabel
                 (State h0 c)
    = (Returns (VRef (length h0)), st')
    /\ (exists o, heap st' !! length h0 = Some o
                  /\ o_class o = CRoleEdge
                  /\ field o "_src" = VRef p
                  /\ field o "_dest" = VRef a
                  /\ field o "_label" = label
                  /\ field o "_modifiers" = modifiers)
    /\ last_of_field st' "predicateRoles" a (VRef (length h0))
    /\ last_of_field st' "argumentRoles" p (VRef (length h0)).
Proof.
  intros Hp Ha Hlegacy.
  replace (length h0) with (length h0 + 0)%nat by lia.
  unfold RoleEdge_new. rewrite bind_unfold.
  destruct (console_assert_returns host
              (isDefined (VRef p) && isDefined label) "RoleEdge" h0 c)
    as [c' ->]; [done|].
  cbv beta iota.
  unfold DAGEdge_new, JavaWrappable_new, new_object, init_field.
  rewrite !bind_unfold, alloc_first. cbv beta iota.
  repeat construct_step.
  change (isDefined (VRef a)) with true. rewrite console_assert_true.
  cbv beta iota. repeat construct_step.
  rewrite (get_member_this _ _ _ _ _ _ _ (VRef a)) by side.
  cbv beta iota. rewrite bind_unfold.
  change (isDefined (VRef a)) with true. cbv iota.
  match goal with
  | |- context [State (h0 ++ [?o]) c'] =>
      set (edge := o); set (st0 := State (h0 ++ [edge]) c')
  end.
  assert (appends_only (VRef (length h0 + 0)%nat) (State h0 c) st0) as A0
    by apply appends_only_alloc.
  destruct (push_link "predicateRoles" (VRef (length h0 + 0)%nat) a st0) as (st1 & E1 & A1 & L1);
    [done|by apply (array_field_at_appended (VRef (length h0 + 0)%nat) _ (State h0 c))|].
  rewrite E1. cbv beta iota.
  edestruct (A1 (length h0 + 0)%nat) as (o1 & k & Ho1 & C1 & P1 & _).
  { simpl. by rewrite lookup_new. }
  simpl in C1, P1.
  rewrite bind_unfold, (get_member_ref host st1 _ o1) by (by rewrite ?C1).
  cbv beta iota. rewrite C1.
  change (default "src" (getter_field CRoleEdge "src")) with "_src".
  assert (field o1 "_src" = VRef p) as ->.
  { unfold field. rewrite P1. by vm_compute. }
  rewrite bind_unfold. change (isDefined (VRef p)) with true. cbv iota.
  destruct (push_link "argumentRoles" (VRef (length h0 + 0)%nat) p st1) as (st' & E & A & L);
    [done| |].
  { apply (array_field_at_appended (VRef (length h0 + 0)%nat) _ st0); [done|].
    by apply (array_field_at_appended (VRef (length h0 + 0)%nat) _ (State h0 c)). }
  rewrite E. cbv beta iota. rewrite mret_unfold.
  exists st'. split; [done|]. split; [|split; [|done]].
  - destruct (A _ _ Ho1) as (o' & k' & Ho' & C & P & _).
    exists o'. split; [done|]. split; [congruence|].
    unfold field. rewrite P, P1. by vm_compute.
  - by apply (last_of_field_appended _ st1).
Qed.

End Links.

(** *** The constructors on freshly built members *)

Ltac open_field :=
  eexists _, _; split; [vm_compute; reflexivity|];
  split; [vm_compute; reflexivity|]; by intros _.

Ltac plain_array_field :=
  eexists _, _, _; split; [vm_compute; reflexivity|];
  split; [vm_compute; reflexivity|];
  split; [vm_compute; reflexivity|];
  split; vm_compute; reflexivity.

Lemma CoreferenceGroup_new_links_witness :
  let host := node LegacyAssert in
  let st := snd (entities_in_array host empty_store) in
  exists st',
    CoreferenceGroup_new host (VRef 10%nat) (State (heap st) (console st))
    = (Returns (VRef (length (heap st))), st')
    /\ (exists o, heap st' !! length (heap st) = Some o
                  /\ o_class o = CCoreferenceGroup
                  /\ o_items o = map VRef [8%nat; 9%nat])
    /\ (forall l, l ∈ [8%nat; 9%nat] ->
          exists o', heap st' !! l = Some o'
            /\ field o' "corefGroup" = VRef (length (heap st)))
    /\ touches_only "corefGroup" [8%nat; 9%nat]
         (State (heap st) (console st)) st'.
Proof.
  intros host st.
  apply (CoreferenceGroup_new_links host 10%nat (object_at st 10%nat)).
  - vm_compute; reflexivity.
  - vm_compute; reflexivity.
  - vm_compute; reflexivity.
  - apply (bool_decide_unpack _). by vm_compute.
  - repeat constructor; open_field.
Defined.


Lemma Entity_new_links_witness :
  let host := node LegacyAssert in
  let st := snd (one_word host "a" "NNG" empty_store) in
  exists st',
    Entity_new host (VStr "a") (VStr "PS") (VStr "PS_NAME") (VRef 2%nat)
               VUndef (State (heap st) (console st))
    = (Returns (VRef (length (heap st))), st')
    /\ (exists o, heap st' !! length (heap st) = Some o
                  /\ o_class o = CEntity
                  /\ o_items o = map VRef [0%nat]
                  /\ field o "_surface" = VStr "a"
                  /\ field o "_label" = VStr "PS"
                  /\ field o "_fineLabel" = VStr "PS_NAME"
                  /\ field o "corefGroup" = VUndef)
    /\ (forall l, l ∈ [0%nat] ->
          last_of_field st' "entities" l (VRef (length (heap st))))
    /\ appends_only (VRef (length (heap st)))
         (State (heap st) (console st)) st'.
Proof.
  intros host st.
  apply (Entity_new_links host (VStr "a") (VStr "PS") (VStr "PS_NAME") VUndef
           2%nat (object_at st 2%nat)).
  - vm_compute; reflexivity.
  - vm_compute; reflexivity.
  - vm_compute; reflexivity.
  - repeat constructor; plain_array_field.
  - by intros _.
Defined.


Lemma RoleEdge_new_links_witness :
  let host := node LegacyAssert in
  let st := snd (two_words host empty_store) in
  exists st',
    RoleEdge_new host (VRef 11%nat) (VRef 3%nat) (VStr "ARG0") VUndef VUndef
                 (State (heap st) (console st))
    = (Returns (VRef (length (heap st))), st')
    /\ (exists o, heap st' !! length (heap st) = Some o
                  /\ o_class o = CRoleEdge
                  /\ field o "_src" = VRef 11%nat
                  /\ field o "_dest" = VRef 3%nat
                  /\ field o "_label" = VStr "ARG0"
                  /\ field o "_modifiers" = VUndef)
    /\ last_of_field st' "predicateRoles" 3%nat (VRef (length (heap st)))
    /\ last_of_field st' "argumentRoles" 11%nat (VRef (length (heap st))).
Proof.
  intros host st.
  apply (RoleEdge_new_links host (VStr "ARG0") VUndef VUndef 11%nat 3%nat).
  - plain_array_field.
  - plain_array_field.
  - by intros _.
Defined.

(** ** Morpheme: the reference and the word sense *)

Lemma get_prop_this_value (host : Host) h0 cls props items rest c p v :
  from_option slot_value VUndef (props !! p) = v ->
  p <> "length" ->
  get_prop host (VRef (length h0 + 0)%nat) p
    (State (h0 ++ Object cls props items false :: rest) c)
  = (Returns v, State (h0 ++ Object cls props items false :: rest) c).
Proof. intros Hp Hl. rewrite get_prop_this by done. by rewrite Hp. Qed.

(** A read of a property of the object under construction. *)
Ltac read_this v :=
  rewrite ?bind_unfold;
  rewrite (get_prop_this_value _ _ _ _ _ _ _ _ v) by side;
  cbv beta iota.

(** X13.  A Morpheme is constructed from every store when [reference] is not
    defined or a foreign object. The constructor reads [reference] back, so a
    foreign Morpheme is built when none was given, and [wordSense] is what
    that foreign object answers. [id] and [word] are one-time-write fields;
    [wordSense] is not, for the name handed to [writeonlyonce] is spelt
    [wordsense]. *)
Theorem Morpheme_new_reference (host : Host) (surface tag originalTag
  reference : val) (h0 : list object) (c : list string) :
  isDefined reference = false \/ (exists h, reference = VJava h) ->
  let handle :=
    match reference with
    | VJava h => h
    | _ => jvm_construct host "Morpheme" [surface; tag; originalTag]
    end in
  exists o,
    Morpheme_new host surface tag originalTag reference (State h0 c)
    = (Returns (VRef (length h0)),
       State (h0 ++ [o; Object CArray ∅ [] false]) c)
    /\ o_class o = CMorpheme
    /\ field o "_surface" = surface
    /\ field o "_tag" = tag
    /\ field o "_originalTag" = originalTag
    /\ field o "_reference" = VJava handle
    /\ field o "wordSense"
       = getOrUndefined (jvm_call host handle "getWordSense")
    /\ plain_slot (o_props o !! "wordSense") = true
    /\ o_props o !! "id" = Some (WriteOnce VUndef)
    /\ o_props o !! "word" = Some (WriteOnce VUndef)
    /\ field o "entities" = VRef (S (length h0)).
Proof.
  intros Href handle.
  replace (length h0) with (length h0 + 0)%nat by lia.
  unfold Morpheme_new, JavaWrappable_new, new_object, init_field,
    writeonlyonce.
  cbn [for_of].
  rewrite !bind_unfold, alloc_first. cbv beta iota.
  repeat construct_step.
  destruct Href as [Hundef|[h ->]].
  - assert (reference = VUndef \/ reference = VNull) as Hcases
      by (destruct reference; try discriminate; auto).
    unfold get_reference, Morpheme_initReference, call_getWordSense.
    destruct Hcases as [-> | ->].
    + read_this VUndef. simpl negb. cbv iota.
      read_this surface. read_this tag.
      read_this originalTag.
      repeat construct_step.
      read_this (VJava handle).
      change (isDefined (VJava handle)) with true. cbv iota.
      read_this (VJava handle).
      change (isDefined (VJava handle)) with true. simpl negb. cbv iota.
      repeat construct_step.
      read_this (VJava handle).
      repeat construct_step.
      simpl length. rewrite Nat.add_1_r, !Nat.add_0_r.
      eexists. split; [reflexivity|]. by vm_compute.
    + read_this VNull. simpl negb. cbv iota.
      read_this surface. read_this tag.
      read_this originalTag.
      repeat construct_step.
      read_this (VJava handle).
      change (isDefined (VJava handle)) with true. cbv iota.
      read_this (VJava handle).
      change (isDefined (VJava handle)) with true. simpl negb. cbv iota.
      repeat construct_step.
      read_this (VJava handle).
      repeat construct_step.
      simpl length. rewrite Nat.add_1_r, !Nat.add_0_r.
      eexists. split; [reflexivity|]. by vm_compute.
  - unfold get_reference, call_getWordSense.
    read_this (VJava h).
    change (isDefined (VJava h)) with true. simpl negb. cbv iota.
    repeat construct_step. read_this (VJava h).
    change (isDefined (VJava h)) with true. cbv iota.
    read_this (VJava h).
    change (isDefined (VJava h)) with true. simpl negb. cbv iota.
    repeat construct_step.
    read_this (VJava h).
    repeat construct_step.
    simpl length. rewrite Nat.add_1_r, !Nat.add_0_r.
    eexists. split; [reflexivity|]. by vm_compute.
Qed.

(** ** Sentence: looking up the members that foreign objects name *)

Lemma get_index_ref (st : state) (l : loc) (o : object) (i : Z) :
  heap st !! l = Some o ->
  get_index (VRef l) i st
  = (Returns (if (0 <=? i)%Z then default VUndef (o_items o !! Z.to_nat i)
              else VUndef), st).
Proof.
  intros Hl. unfold get_index.
  rewrite bind_unfold, (deref_ref l o) by done. cbv beta iota.
  by destruct (0 <=? i)%Z.
Qed.

(** X14.  In a sentence whose elements are objects, [_getWord] never throws
    and changes nothing: it returns a word exactly when the foreign word is
    defined and its index lies in the sentence, and [undefined] otherwise.
    [_getMorph] returns when the index of the foreign morpheme's word lies in
    the sentence, and throws a TypeError when it does not. *)
Theorem Sentence_lookup_bounds (st : state) (l : loc) (o : object) :
  heap st !! l = Some o ->
  Forall (fun v => exists lw ow, v = VRef lw /\ heap st !! lw = Some ow)
         (o_items o) ->
  (forall jword, exists v,
      Sentence_getWord (VRef l) jword st = (Returns v, st)
      /\ (isDefined v = true
          <-> exists w, jword = Some w
                        /\ (0 <= jw_id w < Z.of_nat (length (o_items o)))%Z))
  /\ (forall jmorph,
        ((0 <= jm_word_id jmorph < Z.of_nat (length (o_items o)))%Z ->
         exists v, Sentence_getMorph (VRef l) (Some jmorph) st
                   = (Returns v, st))
        /\ (~ (0 <= jm_word_id jmorph < Z.of_nat (length (o_items o)))%Z ->
            Sentence_getMorph (VRef l) (Some jmorph) st
            = (Throws TypeError, st))).
Proof.
  intros Hl Hall.
  assert (Hin : forall i, (0 <= i < Z.of_nat (length (o_items o)))%Z ->
            exists lw ow, o_items o !! Z.to_nat i = Some (VRef lw)
                          /\ heap st !! lw = Some ow).
  { intros i Hi.
    destruct (lookup_lt_is_Some_2 (o_items o) (Z.to_nat i)) as [v Hv]; [lia|].
    rewrite Forall_forall in Hall.
    destruct (Hall v) as (lw & ow & -> & How).
    - by eapply list_elem_of_lookup_2.
    - by exists lw, ow. }
  assert (Hout : forall i, ~ (0 <= i < Z.of_nat (length (o_items o)))%Z ->
            (if (0 <=? i)%Z then default VUndef (o_items o !! Z.to_nat i)
             else VUndef) = VUndef).
  { intros i Hi. destruct (0 <=? i)%Z eqn:H0; [|done].
    apply Z.leb_le in H0. rewrite lookup_ge_None_2; [done|lia]. }
  split.
  - intros [w|]; simpl.
    + rewrite (get_index_ref st l o) by done. eexists. split; [done|].
      destruct (decide (0 <= jw_id w < Z.of_nat (length (o_items o)))%Z)
        as [Hi|Hi].
      * destruct (Hin _ Hi) as (lw & ow & -> & _).
        destruct (0 <=? jw_id w)%Z eqn:H0; [|lia]. simpl.
        split; [|done]. intros _. by exists w.
      * rewrite (Hout _ Hi). split; [done|].
        intros (w' & [= <-] & ?). done.
    + exists VUndef. split; [done|]. split; [done|]. by intros (w & ? & _).
  - intros jm. simpl. split; intros Hi.
    + destruct (Hin _ Hi) as (lw & ow & Hlw & How).
      rewrite bind_unfold, (get_index_ref st l o) by done. cbv beta iota.
      destruct (0 <=? jm_word_id jm)%Z eqn:H0; [|lia]. rewrite Hlw. simpl.
      rewrite bind_unfold, (deref_ref lw ow) by done. cbv beta iota.
      rewrite (get_index_ref st lw ow) by done. by eexists.
    + rewrite bind_unfold, (get_index_ref st l o) by done. cbv beta iota.
      by rewrite (Hout _ Hi).
Qed.

(** ** Comparing with nothing *)

Lemma get_member_undefined (host : Host) (st : state) (p : string) :
  get_member host VUndef p st = (Throws TypeError, st).
Proof. reflexivity. Qed.

Ltac equals_step host st l o C :=
  first
    [ rewrite bind_unfold
    | rewrite (get_member_ref host st l o) by (rewrite ?C; done)
    | rewrite get_member_undefined
    | rewrite get_member_null
    | rewrite bool_decide_eq_true_2 by done
    | rewrite mret_unfold ];
  cbv beta iota.

(** X15.  [equals] against [undefined] and against [null], by the class of the
    receiver. A Morpheme, a Word, a CoreferenceGroup and a Sentence answer
    false to both. An Entity, a Tree, a SyntaxTree and a DepEdge read a
    property of the argument first and throw a TypeError on both. A DAGEdge
    and a RoleEdge compare [typeof] first, which tells [undefined] from an
    object and not [null]: false for [undefined], a TypeError for [null]. *)
Theorem equals_nothing (host : Host) (st : state) (l : loc) (o : object) :
  heap st !! l = Some o ->
  o_class o <> CArray ->
  equals host (VRef l) VUndef st
  = (match o_class o with
     | CMorpheme | CWord | CCoreferenceGroup | CSentence
     | CDAGEdge | CRoleEdge => Returns false
     | _ => Throws TypeError
     end, st)
  /\ equals host (VRef l) VNull st
     = (match o_class o with
        | CMorpheme | CWord | CCoreferenceGroup | CSentence => Returns false
        | _ => Throws TypeError
        end, st).
Proof.
  intros Hl Hc. unfold equals.
  rewrite !bind_unfold, (deref_ref l o) by done. cbv beta iota.
  destruct (o_class o) eqn:C; try done; clear Hc;
    unfold Morpheme_equals, Word_equals, Entity_equals, Tree_equals,
      DepEdge_equals, DAGEdge_equals, ImmutableArray_equals, and_then,
      same_member;
    split; repeat equals_step host st l o C;
    try reflexivity;
    try (destruct (isDefined _); repeat equals_step host st l o C;
         reflexivity).
Qed.



Lemma equals_nothing_witness :
  let host := node StandardAssert in
  let st := State [Object CRoleEdge {["_label" := Data (VStr "ARG0")]} []
                          false] [] in
  equals host (VRef 0%nat) VUndef st = (Returns false, st)
  /\ equals host (VRef 0%nat) VNull st = (Throws TypeError, st).
Proof.
  intros host st.
  apply (equals_nothing host st 0%nat
           (Object CRoleEdge {["_label" := Data (VStr "ARG0")]} [] false));
    done.
Defined.

Lemma Morpheme_new_reference_witness :
  let host := node LegacyAssert in
  exists o,
    Morpheme_new host (VStr "a") (VStr "NNG") VUndef VUndef empty_store
    = (Returns (VRef 0%nat), State [o; Object CArray ∅ [] false] [])
    /\ field o "_reference" = VJava 0
    /\ field o "wordSense" = VUndef
    /\ plain_slot (o_props o !! "wordSense") = true.
Proof.
  intros host.
  destruct (Morpheme_new_reference host (VStr "a") (VStr "NNG") VUndef VUndef
              [] [] (or_introl eq_refl))
    as (o & E & _ & _ & _ & _ & R & W & P & _).
  exists o. split; [exact E|]. split; [exact R|]. split; [exact W|exact P].
Defined.

Lemma Sentence_lookup_bounds_witness :
  let host := node LegacyAssert in
  let st := snd (sentence_of_two_words host empty_store) in
  let o := object_at st 17%nat in
  (forall jword, exists v,
      Sentence_getWord (VRef 17%nat) jword st = (Returns v, st)
      /\ (isDefined v = true
          <-> exists w, jword = Some w
                        /\ (0 <= jw_id w < Z.of_nat (length (o_items o)))%Z))
  /\ (forall jmorph,
        ((0 <= jm_word_id jmorph < Z.of_nat (length (o_items o)))%Z ->
         exists v, Sentence_getMorph (VRef 17%nat) (Some jmorph) st
                   = (Returns v, st))
        /\ (~ (0 <= jm_word_id jmorph < Z.of_nat (length (o_items o)))%Z ->
            Sentence_getMorph (VRef 17%nat) (Some jmorph) st
            = (Throws TypeError, st))).
Proof.
  intros host st o.
  apply (Sentence_lookup_bounds st 17%nat o).
  - vm_compute; reflexivity.
  - replace (o_items o) with [VRef 3%nat; VRef 11%nat]
      by (vm_compute; reflexivity).
    repeat constructor; eexists _, _;
      (split; [reflexivity|vm_compute; reflexivity]).
Defined.
